(** * Association-rule mining driver: a shallow embedding

    The script [Midterm-Part4-Run.py] is interactive glue around a
    pattern-mining library.  This development embeds the parts of the
    script that are its own logic: the folder setup and dataset
    discovery, the three validated input loops, the cell parser, the
    one-hot encoder [transactions_to_df], the two display helpers, the
    output-file naming and the final merge of the two rule tables.
    Reading the CSV file and mining it are the work of pandas and
    mlxtend; their results enter as the cells of the item column, the
    itemset tables and the rule tables.

    Python values are represented as follows.
    - [str] is [string], a sequence of bytes (UTF-8); comparing strings
      bytewise orders them as Python orders them by code point.
    - A [set] or [frozenset] of strings is a [gset string]; iterating
      it ([list(t)]) is [elements].
    - A data frame is a list of rows together with its column labels;
      the row labels are written out where the code reads them.
    - [float] is the binary64 type [PrimFloat.float].
    - The file system, the lines waiting on standard input and the
      console output form a [world] that the statements of the script
      pass along; [sys.exit] and uncaught exceptions end the run.
    - Console output keeps each line as the pieces of the f-string that
      produced it, so that no number formatting has to be reinvented. *)

From Stdlib Require Import ZArith PrimFloat FloatOps SpecFloat.
From Stdlib Require Uint63.
From stdpp Require Import base gmap sets list strings sorting.

Local Open Scope Z_scope.
Local Open Scope list_scope.

(** * Part I: the program *)

(** ** Strings *)

(** [sorted(xs)]: strings are compared character by character, a
    proper prefix coming first ([String.le]).  On strings every sorting
    algorithm returns the same list, the one produced here by a merge
    sort. *)
Definition sorted (xs : list string) : list string := merge_sort String.le xs.

(** The newline character, written [\n] in the script. *)
Definition nl : string := String (Ascii.ascii_of_nat 10) EmptyString.

(** [s.endswith(suffix)] *)
Definition endswith (s suffix : string) : bool :=
  if (String.length suffix <=? String.length s)%nat
  then String.eqb (String.substring (String.length s - String.length suffix)
                             (String.length suffix) s) suffix
  else false.

(** [s.split(sep)] for a non-empty separator (the script passes [", "];
    Python raises [ValueError] on an empty one).  The text is scanned
    from the left; at each occurrence of [sep] the token read so far is
    closed and the scan resumes behind the occurrence.  [skip] counts
    the characters of a separator still to be passed over, and [cur] is
    the token being read. *)
Fixpoint str_split_go (sep : string) (skip : nat) (cur : string) (s : string)
    : list string :=
  match s with
  | EmptyString => [cur]
  | String c s' =>
      match skip with
      | S k => str_split_go sep k cur s'
      | O =>
          if String.prefix sep s
          then cur :: str_split_go sep (String.length sep - 1) EmptyString s'
          else str_split_go sep 0 (cur +:+ String c EmptyString) s'
      end
  end.

Definition str_split (sep s : string) : list string :=
  str_split_go sep 0 EmptyString s.

(** [s.replace(old, new)] for a non-empty [old]: every occurrence of
    [old], found from the left without overlap, is replaced. *)
Fixpoint str_replace_go (old new : string) (skip : nat) (s : string) : string :=
  match s with
  | EmptyString => EmptyString
  | String c s' =>
      match skip with
      | S k => str_replace_go old new k s'
      | O =>
          if String.prefix old s
          then new +:+ str_replace_go old new (String.length old - 1) s'
          else String c (str_replace_go old new 0 s')
      end
  end.

Definition str_replace (old new s : string) : string :=
  str_replace_go old new 0 s.

(** [os.path.join(a, b)] on a POSIX system, for two components. *)
Definition os_path_join (a b : string) : string :=
  if String.prefix "/" b then b
  else if String.eqb a "" || endswith a "/" then a +:+ b
  else a +:+ "/" +:+ b.

(** The directory of [path], [os.path.dirname(path)]: the text before
    the last [/], and [None] for a path without [/], which names an
    entry of the current directory. *)
Fixpoint dirname (path : string) : option string :=
  match path with
  | EmptyString => None
  | String c rest =>
      match dirname rest with
      | Some parent => Some (String c parent)
      | None => if String.eqb (String c EmptyString) "/" then Some EmptyString else None
      end
  end.

(** ** Console output *)

(** One substitution field or stretch of literal text of an f-string. *)
Inductive piece :=
  | Txt (s : string)                 (* literal text, or a [str] value *)
  | Int (z : Z)                      (* an [int] value *)
  | Flt (decimals : nat) (x : float) (* a float under the format [.Nf] *)
  | Lst (xs : list string).          (* a list of [str], shown by its [repr] *)

Inductive event :=
  | Print (line : list piece)        (* [print(...)]: the text and a newline *)
  | Prompt (text : list piece).      (* the prompt written by [input(...)] *)

(** ** The world, and statements that may end the run *)

Inductive node :=
  | File
  | Dir (entries : list string).     (* the names [os.listdir] returns *)

Inductive exn :=
  | FileExistsError | FileNotFoundError | NotADirectoryError | IsADirectoryError
  | EOFError | ValueError | OverflowError | IndexError
  | AttributeError | OSError.

Inductive outcome (A : Type) :=
  | Ret (a : A)                      (* the statement completed *)
  | Exit (code : Z)                  (* [sys.exit(code)] *)
  | Raise (e : exn).                 (* an exception nobody catches *)
Arguments Ret {A} a.
Arguments Exit {A} code.
Arguments Raise {A} e.

Record world := mkWorld {
  fs : gmap string node;             (* what exists at each path *)
  stdin : list string;               (* the lines still to be read *)
  stdout : list event                (* everything written so far *)
}.

Definition M (A : Type) : Type := world → outcome A * world.

Definition ret {A} (a : A) : M A := λ w, (Ret a, w).

Definition bind {A B} (m : M A) (k : A → M B) : M B := λ w,
  match m w with
  | (Ret a, w') => k a w'
  | (Exit c, w') => (Exit c, w')
  | (Raise e, w') => (Raise e, w')
  end.

Notation "'let*' x := m 'in' k" := (bind m (λ x, k))
  (at level 10, x pattern, m at level 100, k at level 200).
Notation "m ;; k" := (bind m (λ _, k))
  (at level 100, k at level 200, right associativity).

Definition print (line : list piece) : M unit := λ w,
  (Ret (), mkWorld (fs w) (stdin w) (stdout w ++ [Print line])).

Definition sys_exit {A} (code : Z) : M A := λ w, (Exit code, w).

Definition raise {A} (e : exn) : M A := λ w, (Raise e, w).

(** [for x in xs: body(x)] *)
Fixpoint for_each {A} (xs : list A) (body : A → M unit) : M unit :=
  match xs with
  | [] => ret ()
  | x :: xs' => body x ;; for_each xs' body
  end.

(** [enumerate(xs, start)] *)
Definition enumerate_from {A} (start : nat) (xs : list A) : list (nat * A) :=
  imap (λ i x, ((start + i)%nat, x)) xs.

Definition enumerate {A} (xs : list A) : list (nat * A) := enumerate_from 0 xs.

(** [os.makedirs(path, exist_ok=True)], the parent being present: an
    existing directory is left alone, a regular file in the way raises. *)
Definition makedirs_exist_ok (path : string) : M unit := λ w,
  match fs w !! path with
  | Some (Dir _) => (Ret (), w)
  | Some File => (Raise FileExistsError, w)
  | None => (Ret (), mkWorld (<[path := Dir []]> (fs w)) (stdin w) (stdout w))
  end.

(** [os.path.exists(path)] *)
Definition os_path_exists (path : string) : M bool := λ w,
  (Ret (bool_decide (is_Some (fs w !! path))), w).

(** [os.listdir(path)] *)
Definition os_listdir (path : string) : M (list string) := λ w,
  match fs w !! path with
  | Some (Dir entries) => (Ret entries, w)
  | Some File => (Raise NotADirectoryError, w)
  | None => (Raise FileNotFoundError, w)
  end.

(** Whether the directory of [path] is there to take a file.  The root
    and the current directory always are. *)
Definition parent_is_dir (m : gmap string node) (path : string) : bool :=
  match dirname path with
  | None | Some EmptyString => true
  | Some parent =>
      match m !! parent with
      | Some (Dir _) => true
      | _ => false
      end
  end.

(** [frame.to_csv(path, index=False)].  pandas first looks for the
    directory of [path] and raises [OSError] when it is missing or is
    not a directory; then the file is opened for writing, which creates
    or replaces it and fails on a directory.  A [node] records that a
    regular file is there, not what it holds, so the text written does
    not appear. *)
Definition to_csv (path : string) : M unit := λ w,
  if parent_is_dir (fs w) path then
    match fs w !! path with
    | Some (Dir _) => (Raise IsADirectoryError, w)
    | _ => (Ret (), mkWorld (<[path := File]> (fs w)) (stdin w) (stdout w))
    end
  else (Raise OSError, w).

(** ** Folder setup and dataset discovery (lines 16 to 48) *)

Definition input_dir (base_dir : string) : string := os_path_join base_dir "transactions".
Definition output_dir (base_dir : string) : string := os_path_join base_dir "results".

Definition folder_setup (base_dir : string) : M unit :=
  makedirs_exist_ok (output_dir base_dir).

Definition check_input_dir (base_dir : string) : M unit :=
  let* present := os_path_exists (input_dir base_dir) in
  if negb present then
    print [Txt "Error: '"; Txt (input_dir base_dir); Txt "' not found."] ;;
    print [Txt "Make sure the 'transactions' folder is in the same directory as this script."] ;;
    sys_exit 1
  else ret ().

Definition list_datasets (base_dir : string) : M (list string) :=
  let* entries := os_listdir (input_dir base_dir) in
  let available_datasets := filter (λ f, endswith f ".csv" = true) entries in
  match available_datasets with
  | [] =>
      print [Txt "No CSV datasets found in the 'transactions' folder."] ;;
      sys_exit 1
  | _ =>
      print [Txt (nl +:+ "=== Available Retailer Datasets ===")] ;;
      for_each (enumerate_from 1 available_datasets)
        (λ '(i, dataset), print [Int (Z.of_nat i); Txt ". "; Txt dataset]) ;;
      ret available_datasets
  end.

(** The two checks that guard the run, in program order. *)
Definition dataset_locator (base_dir : string) : M (list string) :=
  check_input_dir base_dir ;; list_datasets base_dir.

(** The script from its first statement to the listing of the datasets. *)
Definition startup (base_dir : string) : M (list string) :=
  folder_setup base_dir ;; dataset_locator base_dir.

(** ** The validated input loops (lines 54 to 86) *)

(** What one pass through the body of a [while True] loop decides on
    the line it has read. *)
Inductive verdict (A : Type) :=
  | Accept (a : A)                   (* [break] *)
  | Reject (message : list piece)    (* a message is printed; next pass *)
  | Abort (e : exn).                 (* an exception the loop does not catch *)
Arguments Accept {A} a.
Arguments Reject {A} message.
Arguments Abort {A} e.

(** [while True: line = input(prompt); ...].  Every pass begins by
    reading one line, so the loop is a recursion over the lines that
    standard input still holds; when none is left [input] raises
    [EOFError], which the [except ValueError] clause lets through. *)
Fixpoint input_loop {A} (prompt : list piece) (body : string → verdict A)
    (lines : list string) (out : list event)
    : outcome A * list string * list event :=
  match lines with
  | [] => (Raise EOFError, [], out ++ [Prompt prompt])
  | line :: rest =>
      match body line with
      | Accept a => (Ret a, rest, out ++ [Prompt prompt])
      | Reject message =>
          input_loop prompt body rest (out ++ [Prompt prompt; Print message])
      | Abort e => (Raise e, rest, out ++ [Prompt prompt])
      end
  end.

Definition run_input_loop {A} (prompt : list piece) (body : string → verdict A)
    : M A := λ w,
  let '(r, rest, out) := input_loop prompt body (stdin w) (stdout w) in
  (r, mkWorld (fs w) rest out).

Section prompts.
(** The conversions [int(...)] and [float(...)] of the built-ins, applied
    to text: [None] stands for the [ValueError] they raise. *)
Variable py_int : string → option Z.
Variable py_float : string → option float.

Definition dataset_prompt : list piece := [Txt (nl +:+ "Select a dataset by number: ")].
Definition support_prompt : list piece := [Txt "Enter minimum support (0–1): "].
Definition confidence_prompt : list piece := [Txt "Enter minimum confidence (0–1): "].

(** The body of the dataset loop; on acceptance [choice] and
    [selected_dataset] are both set. *)
Definition dataset_body (available_datasets : list string) (line : string)
    : verdict (Z * string) :=
  match py_int line with
  | Some choice =>
      if (1 <=? choice) && (choice <=? Z.of_nat (length available_datasets))
      then match available_datasets !! Z.to_nat (choice - 1) with
           | Some selected_dataset => Accept (choice, selected_dataset)
           | None => Abort IndexError
           end
      else Reject [Txt "Please enter a number between 1 and ";
                   Int (Z.of_nat (length available_datasets)); Txt "."]
  | None => Reject [Txt "Invalid input. Please enter a number."]
  end.

Definition support_body (line : string) : verdict float :=
  match py_float line with
  | Some min_support =>
      if (0 <? min_support)%float && (min_support <=? 1)%float
      then Accept min_support
      else Reject [Txt "Support must be between 0 and 1."]
  | None => Reject [Txt "Invalid input. Please enter a decimal number between 0 and 1."]
  end.

Definition confidence_body (line : string) : verdict float :=
  match py_float line with
  | Some min_confidence =>
      if (0 <? min_confidence)%float && (min_confidence <=? 1)%float
      then Accept min_confidence
      else Reject [Txt "Confidence must be between 0 and 1."]
  | None => Reject [Txt "Invalid input. Please enter a decimal number between 0 and 1."]
  end.

Definition select_dataset (available_datasets : list string) :=
  input_loop dataset_prompt (dataset_body available_datasets).
Definition read_min_support := input_loop support_prompt support_body.
Definition read_min_confidence := input_loop confidence_prompt confidence_body.

(** Steps 2 and 3 of the script, one loop after the other. *)
Definition collect_parameters (available_datasets : list string)
    : M (string * float * float) :=
  let* picked := run_input_loop dataset_prompt (dataset_body available_datasets) in
  let selected_dataset := picked.2 in
  let* min_support := run_input_loop support_prompt support_body in
  let* min_confidence := run_input_loop confidence_prompt confidence_body in
  ret (selected_dataset, min_support, min_confidence).
End prompts.

(** ** From the data set to the one-hot table (lines 30 to 35 and 98) *)

(** One value of the column [ItemsPurchased] as [pd.read_csv] hands it
    over.  A field with text comes as a [str].  An empty field, or one
    that holds an NA marker, comes as the float [nan], and in a column
    of numbers every value is a number. *)
Inductive cell :=
  | CellStr (s : string)
  | CellFloat (x : float)
  | CellInt (z : Z).

(** [set(t.split(", "))] for a value [t] that is a [str] *)
Definition cell_transaction (cell : string) : gset string :=
  list_to_set (str_split ", " cell).

(** [set(t.split(", "))] for any value [t] of the column: a number has
    no method [split]. *)
Definition parse_cell (t : cell) : exn + gset string :=
  match t with
  | CellStr s => inr (cell_transaction s)
  | CellFloat _ | CellInt _ => inl AttributeError
  end.

(** [[set(t.split(", ")) for t in df["ItemsPurchased"]]]: the values are
    taken in order, and the first exception ends the comprehension. *)
Fixpoint parse_transactions (cells : list cell) : exn + list (gset string) :=
  match cells with
  | [] => inr []
  | t :: cells' =>
      match parse_cell t with
      | inl e => inl e
      | inr transaction =>
          match parse_transactions cells' with
          | inl e => inl e
          | inr transactions => inr (transaction :: transactions)
          end
      end
  end.

Record DataFrame := mkDF {
  columns : list string;      (* column labels, in order *)
  data : list (list Z)        (* one list per row; the row labels are 0, 1, ... *)
}.

(** [pd.DataFrame(v, index=range(n), columns=cols)] *)
Definition DataFrame_fill (v : Z) (n : nat) (cols : list string) : DataFrame :=
  mkDF cols (replicate n (replicate (length cols) v)).

(** [df.loc[i, labels] = v] for a row label [i] and a list of column
    labels.  Every cell of row [i] whose column is listed receives [v].
    A label that is not in the frame takes pandas out of plain
    assignment (a [KeyError], or enlargement of the frame); that case is
    reported as [None]. *)
Definition loc_set (df : DataFrame) (i : nat) (labels : list string) (v : Z)
    : option DataFrame :=
  if decide (i < length (data df))%nat then
    if decide (Forall (λ c, c ∈ columns df) labels) then
      Some (mkDF (columns df)
              (alter (λ row, zip_with (λ c old, if decide (c ∈ labels) then v else old)
                                      (columns df) row) i (data df)))
    else None
  else None.

(** The loop [for i, t in enumerate(transactions): one_hot.loc[i, list(t)] = 1] *)
Fixpoint encode_rows (one_hot : DataFrame) (its : list (nat * gset string))
    : option DataFrame :=
  match its with
  | [] => Some one_hot
  | (i, t) :: its' =>
      match loc_set one_hot i (elements t) 1 with
      | Some one_hot' => encode_rows one_hot' its'
      | None => None
      end
  end.

(** [sorted(set(item for t in transactions for item in t))] *)
Definition all_items (transactions : list (gset string)) : list string :=
  sorted (elements (list_to_set (C := gset string) (transactions ≫= elements))).

Definition transactions_to_df (transactions : list (gset string)) : option DataFrame :=
  let one_hot := DataFrame_fill 0 (length transactions) (all_items transactions) in
  encode_rows one_hot (enumerate transactions).

(** ** What the mining library hands back *)

(** A frame of records: each row carries its index label.  A frame
    built by the library has the labels 0, 1, 2, ... *)
Definition frame (A : Type) : Type := list (Z * A).

Definition range_index {A} (rows : list A) : frame A :=
  imap (λ i row, (Z.of_nat i, row)) rows.

(** One row of the tables of [apriori] and [fpgrowth]. *)
Record ItemsetRow := mkItemsetRow {
  itemsets : gset string;
  support : float
}.

(** One row of the table of [association_rules]; [metrics] holds the
    columns the script never reads (lift, leverage, conviction, ...). *)
Record Rule := mkRule {
  antecedents : gset string;
  consequents : gset string;
  confidence : float;
  metrics : list float
}.

(** ** Numbers *)

(** [float(n)] for a row count [n]; exact below 2^53. *)
Definition float_of_nat (n : nat) : float :=
  PrimFloat.of_uint63 (Uint63.of_Z (Z.of_nat n)).

(** [int(x)]: the fractional part is dropped. *)
Definition int_of_float (x : float) : exn + Z :=
  match Prim2SF x with
  | S754_zero _ => inr 0
  | S754_finite s m e =>
      let magnitude := if 0 <=? e then Z.pos m * 2 ^ e else Z.pos m / 2 ^ (- e) in
      inr (if s then - magnitude else magnitude)
  | S754_infinity _ => inl OverflowError
  | S754_nan => inl ValueError
  end.

(** ** The result reporter (lines 116 to 135) *)

(** [frame.head(n)]: the first [n] rows, or for a negative [n] all rows
    but the last [-n]. *)
Definition df_head {A} (n : Z) (rows : frame A) : frame A :=
  if 0 <=? n then take (Z.to_nat n) rows
  else take (length rows - Z.to_nat (- n)) rows.

(** The count shown for one row; [n_rows] is [len(df_onehot)]. *)
Definition shown_count (n_rows : nat) (row : ItemsetRow) : exn + Z :=
  int_of_float (support row * float_of_nat n_rows)%float.

(** [display_top_itemsets(itemsets_df, table_name, top_n)].  The
    function reads the global [df_onehot] for its length, passed here
    as [n_rows]. *)
Definition display_top_itemsets (n_rows : nat) (itemsets_df : frame ItemsetRow)
    (table_name : string) (top_n : Z) : M unit :=
  print [Txt nl; Txt table_name; Txt ":"] ;;
  print [Txt "Itemset | Count"] ;;
  for_each (df_head top_n itemsets_df) (λ '(_, row),
    let items := elements (itemsets row) in
    match shown_count n_rows row with
    | inr count => print [Lst items; Txt " : "; Int count]
    | inl e => raise e
    end).

(** The value of the parameter [top_n] when the caller omits it. *)
Definition default_top_n : Z := 10.

Definition display_rules (rules_df : frame Rule) : M unit :=
  print [Txt (nl +:+ "Final Association Rules:")] ;;
  match rules_df with
  | [] => print [Txt "No rules found for given thresholds."]
  | _ =>
      for_each rules_df (λ '(i, row),
        let antecedents := elements (antecedents row) in
        let consequents := elements (consequents row) in
        let confidence := (confidence row * 100)%float in
        print [Txt "Rule "; Int (i + 1); Txt ": "; Lst antecedents;
               Txt " -> "; Lst consequents] ;;
        print [Txt "Confidence: "; Flt 2 confidence; Txt ("%" +:+ nl)])
  end.

(** ** The result persister (lines 149 to 160) *)

(** The variable [prefix] of the script. *)
Definition dataset_prefix (selected_dataset : string) : string :=
  str_replace ".csv" "" selected_dataset.

(** The four paths handed to [to_csv], in program order. *)
Definition result_paths (out_dir pre : string) : list string :=
  [ out_dir +:+ "/" +:+ pre +:+ "_apriori_itemsets.csv";
    out_dir +:+ "/" +:+ pre +:+ "_apriori_rules.csv";
    out_dir +:+ "/" +:+ pre +:+ "_fpgrowth_itemsets.csv";
    out_dir +:+ "/" +:+ pre +:+ "_fpgrowth_rules.csv" ].

Definition save_results (base_dir selected_dataset : string) : M unit :=
  let pre := dataset_prefix selected_dataset in
  for_each (result_paths (output_dir base_dir) pre) to_csv ;;
  print [Txt nl; Txt "Results saved in: "; Txt (output_dir base_dir)] ;;
  print [Txt "Files generated:"] ;;
  print [Txt "- "; Txt pre; Txt "_apriori_itemsets.csv"] ;;
  print [Txt "- "; Txt pre; Txt "_apriori_rules.csv"] ;;
  print [Txt "- "; Txt pre; Txt "_fpgrowth_itemsets.csv"] ;;
  print [Txt "- "; Txt pre; Txt ("_fpgrowth_rules.csv" +:+ nl)].

(** ** The rule merger (line 166) *)

(** [pd.concat([a, b])]: the rows of [a], then those of [b], each with
    the label it had. *)
Definition pd_concat {A} (a b : frame A) : frame A := a ++ b.

(** [frame.drop_duplicates(subset=...)]: a row goes when an earlier row
    has the same values in the columns of [subset]; [seen] collects the
    values met so far. *)
Fixpoint drop_duplicates_go {A K} `{EqDecision K} (key : A → K) (seen : list K)
    (rows : frame A) : frame A :=
  match rows with
  | [] => []
  | (i, row) :: rows' =>
      if decide (key row ∈ seen) then drop_duplicates_go key seen rows'
      else (i, row) :: drop_duplicates_go key (key row :: seen) rows'
  end.

Definition drop_duplicates {A K} `{EqDecision K} (key : A → K) (rows : frame A)
    : frame A :=
  drop_duplicates_go key [] rows.

(** The columns [antecedents] and [consequents] of a rule. *)
Definition rule_key (r : Rule) : gset string * gset string :=
  (antecedents r, consequents r).

Definition final_rules (apriori_rules fpg_rules : frame Rule) : frame Rule :=
  drop_duplicates rule_key (pd_concat apriori_rules fpg_rules).

(** ** The compact view of the merged rules (lines 163 to 175) *)

(** One line of the compact view, kept as the values that enter it.
    [RuleLine i a c x] is the text of
    [f"Rule {i}: [{set(antecedents)}], [{set(consequents)}], {confidence}"]
    for the sets [a] and [c] and [confidence = round(x, 4)]. *)
Inductive view_line :=
  | ViewHeading                      (* [print("\nFinal Association Rules:")] *)
  | NoRulesLine                      (* ["No rules found with the given thresholds."] *)
  | RuleLine (i : Z) (a c : gset string) (x : float).

(** Step 7 of the script: the heading, then the notice or one line per
    row of [final_rules], numbered by [enumerate(..., start=1)]. *)
Definition compact_view (apriori_rules fpg_rules : frame Rule) : list view_line :=
  ViewHeading ::
  match final_rules apriori_rules fpg_rules with
  | [] => [NoRulesLine]
  | final =>
      (λ p : nat * (Z * Rule),
         let row := p.2.2 in
         let antecedents := elements (antecedents row) in
         let consequents := elements (consequents row) in
         RuleLine (Z.of_nat p.1) (list_to_set antecedents) (list_to_set consequents)
                  (confidence row))
        <$> enumerate_from 1 final
  end.

(** * Part II: notions used in the statements *)

(** [sum(row)] *)
Definition row_sum (row : list Z) : Z := foldr Z.add 0 row.

(** The row of zeros and ones that marks the items of [t] among [cols]. *)
Definition indicator_row (cols : list string) (t : gset string) : list Z :=
  (λ c, if decide (c ∈ t) then 1 else 0) <$> cols.

(** [round(x)]: the nearest integer, a tie going to the even one. *)
Definition py_round (x : float) : exn + Z :=
  match Prim2SF x with
  | S754_zero _ => inr 0
  | S754_finite s m e =>
      let magnitude :=
        if 0 <=? e then Z.pos m * 2 ^ e
        else
          let q := Z.pos m / 2 ^ (- e) in
          let r := Z.pos m mod 2 ^ (- e) in
          let half := 2 ^ (- e - 1) in
          if (half <? r) || ((r =? half) && Z.odd q) then q + 1 else q in
      inr (if s then - magnitude else magnitude)
  | S754_infinity _ => inl OverflowError
  | S754_nan => inl ValueError
  end.

(** The file name without its extension, as the specification words it:
    the trailing [".csv"] is cut off and nothing else is touched. *)
Definition spec_dataset_prefix (selected_dataset : string) : string :=
  if endswith selected_dataset ".csv"
  then String.substring 0 (String.length selected_dataset - 4) selected_dataset
  else selected_dataset.

(** [sep.join(tokens)] *)
Fixpoint str_join (sep : string) (tokens : list string) : string :=
  match tokens with
  | [] => EmptyString
  | [tok] => tok
  | tok :: tokens' => tok +:+ sep +:+ str_join sep tokens'
  end.

(** The message the dataset loop owes a line it turns down: one text
    for a line that is no integer, another for an integer out of range. *)
Definition dataset_message (py_int : string → option Z) (n_datasets : nat)
    (line : string) : list piece :=
  match py_int line with
  | None => [Txt "Invalid input. Please enter a number."]
  | Some _ => [Txt "Please enter a number between 1 and ";
               Int (Z.of_nat n_datasets); Txt "."]
  end.

(** The message a threshold loop owes a line it turns down: one text
    for a line that is no number, and [out_of_range] for a number
    outside the interval. *)
Definition threshold_message (py_float : string → option float)
    (out_of_range : string) (line : string) : list piece :=
  match py_float line with
  | None => [Txt "Invalid input. Please enter a decimal number between 0 and 1."]
  | Some _ => [Txt out_of_range]
  end.

(** What a loop has written once it has turned down the lines
    [rejected]: for each of them the prompt and then its message, and
    at the end the prompt of the pass that ended the loop. *)
Definition asked (prompt : list piece) (message : string → list piece)
    (rejected : list string) : list event :=
  (rejected ≫= λ line, [Prompt prompt; Print (message line)]) ++ [Prompt prompt].

(** What it means for a loop to accept exactly the valid lines.  The
    body breaks out on a line precisely when the line is valid.  An
    invalid line gets its message and the loop asks again, on the lines
    that follow.  When the loop has produced a value, it has read
    invalid lines up to the first valid one, which gave the value, and
    has written the prompts and messages of those lines and no more.  It
    does produce a value as soon as a valid line comes; and when none
    comes, all the lines are turned down, each with its message, and
    only the end of the input stops the loop, as [EOFError]. *)
Definition accepts_exactly {A} (prompt : list piece) (body : string → verdict A)
    (valid : string → Prop) (message : string → list piece) : Prop :=
  (∀ line, (∃ a, body line = Accept a) ↔ valid line) ∧
  (∀ line rest out, ¬ valid line →
     body line = Reject (message line) ∧
     input_loop prompt body (line :: rest) out
     = input_loop prompt body rest (out ++ [Prompt prompt; Print (message line)])) ∧
  (∀ lines out a rest out',
     input_loop prompt body lines out = (Ret a, rest, out') →
     ∃ pre line, lines = pre ++ line :: rest ∧ Forall (λ l, ¬ valid l) pre ∧
                 valid line ∧ body line = Accept a ∧
                 out' = out ++ asked prompt message pre) ∧
  (∀ pre line rest out,
     Forall (λ l, ¬ valid l) pre → valid line →
     ∃ a, body line = Accept a ∧
          input_loop prompt body (pre ++ line :: rest) out
          = (Ret a, rest, out ++ asked prompt message pre)) ∧
  (∀ pre out,
     Forall (λ l, ¬ valid l) pre →
     input_loop prompt body pre out
     = (Raise EOFError, [], out ++ asked prompt message pre)).

(** [0 < x <= 1] on floats. *)
Definition in_unit_interval (x : float) : Prop :=
  (0 <? x)%float = true ∧ (x <=? 1)%float = true.

(** The messages of the two checks. *)
Definition missing_dir_report (base_dir : string) : list event :=
  [ Print [Txt "Error: '"; Txt (input_dir base_dir); Txt "' not found."];
    Print [Txt "Make sure the 'transactions' folder is in the same directory as this script."] ].

Definition no_data_report : list event :=
  [ Print [Txt "No CSV datasets found in the 'transactions' folder."] ].

(** The listing shown when datasets were found. *)
Definition datasets_listing (available_datasets : list string) : list event :=
  Print [Txt (nl +:+ "=== Available Retailer Datasets ===")]
  :: imap (λ i dataset, Print [Int (Z.of_nat (1 + i)); Txt ". "; Txt dataset])
          available_datasets.

(** The two lines shown for the rule [row] under the index label [i]. *)
Definition rule_lines (i : Z) (row : Rule) : list event :=
  [ Print [Txt "Rule "; Int (i + 1); Txt ": "; Lst (elements (antecedents row));
           Txt " -> "; Lst (elements (consequents row))];
    Print [Txt "Confidence: "; Flt 2 (confidence row * 100)%float; Txt ("%" +:+ nl)] ].

Definition rules_header : event := Print [Txt (nl +:+ "Final Association Rules:")].
Definition no_rules_notice : event := Print [Txt "No rules found for given thresholds."].

(** The line shown for one row whose count is [count]. *)
Definition itemset_line (row : ItemsetRow) (count : Z) : event :=
  Print [Lst (elements (itemsets row)); Txt " : "; Int count].

(** ** Notions for the further properties *)

(** [old in s] *)
Fixpoint str_contains (old s : string) : bool :=
  match s with
  | EmptyString => String.prefix old s
  | String _ s' => String.prefix old s || str_contains old s'
  end.

(** The items a row of the table marks with a 1. *)
Definition decode_row (cols : list string) (row : list Z) : gset string :=
  list_to_set (omap (λ p : string * Z, if decide (p.2 = 1) then Some p.1 else None)
                    (zip cols row)).

(** The sum of column [j] of a table. *)
Definition column_sum (df : DataFrame) (j : nat) : Z :=
  foldr Z.add 0 ((λ row, default 0 (row !! j)) <$> data df).

(** What a loop writes when it has rejected the lines [rejected]: before
    every line read the prompt, after every rejected line its message,
    and the prompt of the pass that ended the loop. *)
Definition transcript {A} (prompt : list piece) (body : string → verdict A)
    (rejected : list string) : list event :=
  (rejected ≫= λ line,
     Prompt prompt :: match body line with Reject message => [Print message] | _ => [] end)
  ++ [Prompt prompt].

(** A loop that reads until the first valid line: on every input it
    rejects a run of invalid lines, writing the transcript of that run,
    and then either meets a valid line, returns its value and leaves
    the lines behind it unread, or finds the input at its end and raises
    [EOFError]. *)
Definition reads_until_valid {A} (prompt : list piece) (body : string → verdict A)
    (valid : string → Prop) : Prop :=
  ∀ lines out,
    ∃ rejected,
      Forall (λ l, ¬ valid l) rejected ∧
      (input_loop prompt body lines out).2 = out ++ transcript prompt body rejected ∧
      ((∃ a line,
          lines = rejected ++ line :: (input_loop prompt body lines out).1.2 ∧
          valid line ∧ body line = Accept a ∧
          (input_loop prompt body lines out).1.1 = Ret a) ∨
       (lines = rejected ∧
        (input_loop prompt body lines out).1.2 = [] ∧
        (input_loop prompt body lines out).1.1 = Raise EOFError)).


(** No occurrence of [sep] starts inside [cur] when [cur] is followed by [s]. *)
Definition no_start (sep cur s : string) : Prop :=
  ∀ u v, cur = u +:+ v → v ≠ EmptyString → String.prefix sep (v +:+ s) = false.

(** * Part III: properties *)

(** ** The encoder: auxiliary facts *)

Section encoder_facts.
Implicit Types (cols : list string) (t : gset string) (ts : list (gset string)).

Lemma zip_with_zeros cols t :
  zip_with (λ c old, if decide (c ∈ elements t) then 1 else old)
           cols (replicate (length cols) 0)
  = indicator_row cols t.
Proof.
  induction cols as [|c cols IH]; simpl; [done|].
  rewrite IH. f_equal.
  destruct (decide (c ∈ elements t)) as [Hin|Hin], (decide (c ∈ t)) as [Hin'|Hin'];
    try done; rewrite elem_of_elements in Hin; contradiction.
Qed.

Lemma loc_set_next_row cols above rest t :
  (∀ x, x ∈ t → x ∈ cols) →
  loc_set (mkDF cols (above ++ replicate (length cols) 0 :: rest))
          (length above) (elements t) 1
  = Some (mkDF cols (above ++ indicator_row cols t :: rest)).
Proof.
  intros Hsub. unfold loc_set; simpl.
  rewrite decide_True by (rewrite length_app; simpl; lia).
  rewrite decide_True.
  2:{ apply Forall_forall. intros x Hx. apply Hsub. by apply elem_of_elements. }
  do 2 f_equal.
  rewrite alter_app_r_alt by lia.
  replace (length above - length above)%nat with 0%nat by lia. simpl.
  by rewrite zip_with_zeros.
Qed.

Lemma encode_rows_from cols ts : ∀ above,
  Forall (λ t, ∀ x, x ∈ t → x ∈ cols) ts →
  encode_rows (mkDF cols (above ++ replicate (length ts) (replicate (length cols) 0)))
              (imap (λ i t, ((length above + i)%nat, t)) ts)
  = Some (mkDF cols (above ++ (indicator_row cols <$> ts))).
Proof.
  induction ts as [|t ts IH]; intros above Hall; simpl.
  { done. }
  apply Forall_cons in Hall as [Ht Hall].
  replace (length above + 0)%nat with (length above) by lia.
  rewrite loc_set_next_row by done.
  specialize (IH (above ++ [indicator_row cols t]) Hall).
  rewrite <- !(assoc_L (++)) in IH. simpl in IH.
  etrans; [|exact IH]. f_equal.
  apply imap_ext. intros i x _. simpl. rewrite length_app. simpl. f_equal. lia.
Qed.

Lemma row_sum_indicator cols t :
  NoDup cols → (∀ x, x ∈ t → x ∈ cols) →
  row_sum (indicator_row cols t) = Z.of_nat (size t).
Proof.
  intros Hnd Hsub.
  assert (row_sum (indicator_row cols t)
          = Z.of_nat (length (filter (λ c, c ∈ t) cols))) as ->.
  { clear. induction cols as [|c cols IH]; simpl; [done|].
    rewrite filter_cons. unfold row_sum in *. simpl in *.
    destruct (decide (c ∈ t)); simpl; rewrite IH; lia. }
  f_equal. unfold size, set_size. simpl.
  apply Permutation_length, NoDup_Permutation.
  - by apply NoDup_filter.
  - apply NoDup_elements.
  - intros x. rewrite list_elem_of_filter, elem_of_elements. split.
    + by intros [? _].
    + intros Hx. split; [done|]. by apply Hsub.
Qed.

Lemma indicator_row_lookup cols t j c :
  cols !! j = Some c →
  indicator_row cols t !! j = Some (if decide (c ∈ t) then 1 else 0).
Proof. intros H. unfold indicator_row. by rewrite list_lookup_fmap, H. Qed.

Lemma sorted_elem_of xs x : x ∈ sorted xs ↔ x ∈ xs.
Proof. unfold sorted. by rewrite merge_sort_Permutation. Qed.

Lemma sorted_sorted xs : StronglySorted String.le (sorted xs).
Proof. apply StronglySorted_merge_sort; apply _. Qed.

Lemma all_items_elem_of ts x : x ∈ all_items ts ↔ ∃ t, t ∈ ts ∧ x ∈ t.
Proof.
  unfold all_items.
  rewrite sorted_elem_of, elem_of_elements, elem_of_list_to_set, list_elem_of_bind.
  split; intros (t & H1 & H2); exists t.
  - split; [done|]. by apply elem_of_elements.
  - split; [|done]. by apply elem_of_elements.
Qed.

Lemma all_items_sorted ts : StronglySorted String.le (all_items ts).
Proof. apply sorted_sorted. Qed.

Lemma all_items_NoDup ts : NoDup (all_items ts).
Proof.
  unfold all_items, sorted. rewrite merge_sort_Permutation. apply NoDup_elements.
Qed.

Lemma all_items_length ts : length (all_items ts) = size (⋃ ts).
Proof.
  unfold all_items, sorted. rewrite merge_sort_Permutation.
  change (size (list_to_set (C := gset string) (ts ≫= elements)) = size (⋃ ts)).
  f_equal. apply set_eq. intros x.
  rewrite elem_of_list_to_set, list_elem_of_bind, elem_of_union_list.
  split; intros (t & H1 & H2); exists t.
  - split; [done|]. by apply elem_of_elements.
  - split; [|done]. by apply elem_of_elements.
Qed.

Lemma all_items_covers ts :
  Forall (λ t : gset string, ∀ x, x ∈ t → x ∈ all_items ts) ts.
Proof. apply Forall_forall. intros t Ht x Hx. apply all_items_elem_of. eauto. Qed.

(** The loop never leaves plain assignment, and its result has a closed form. *)
Lemma transactions_to_df_eq ts :
  transactions_to_df ts
  = Some (mkDF (all_items ts) (indicator_row (all_items ts) <$> ts)).
Proof.
  unfold transactions_to_df, DataFrame_fill, enumerate.
  apply (encode_rows_from (all_items ts) ts [] (all_items_covers ts)).
Qed.
End encoder_facts.

(** ** The encoder: correctness *)

(** C1.  For every sequence of transactions the encoder returns a table
    whose columns are the items of the transactions, each once, in
    lexicographic order, with one row per transaction; the entry of row
    [i] under item [c] is 1 when [c] is in transaction [i] and 0
    otherwise, the sum of row [i] is the cardinality of transaction [i],
    and the number of columns is the number of distinct items. *)
Theorem transactions_to_df_one_hot (transactions : list (gset string)) :
  ∃ df, transactions_to_df transactions = Some df ∧
    StronglySorted String.le (columns df) ∧
    NoDup (columns df) ∧
    (∀ x, x ∈ columns df ↔ ∃ t, t ∈ transactions ∧ x ∈ t) ∧
    length (data df) = length transactions ∧
    (∀ i t, transactions !! i = Some t →
       ∃ row, data df !! i = Some row ∧
         length row = length (columns df) ∧
         (∀ j c, columns df !! j = Some c →
            row !! j = Some (if decide (c ∈ t) then 1 else 0)) ∧
         row_sum row = Z.of_nat (size t)) ∧
    length (columns df) = size (⋃ transactions).
Proof.
  eexists. split; [apply transactions_to_df_eq|]. simpl.
  split; [apply all_items_sorted|].
  split; [apply all_items_NoDup|].
  split; [apply all_items_elem_of|].
  split; [by rewrite length_fmap|].
  split; [|apply all_items_length].
  intros i t Hi. exists (indicator_row (all_items transactions) t).
  rewrite list_lookup_fmap, Hi. split; [done|].
  split; [by unfold indicator_row; rewrite length_fmap|].
  split; [intros j c Hj; by apply indicator_row_lookup|].
  apply row_sum_indicator; [apply all_items_NoDup|].
  pose proof (all_items_covers transactions) as Hsub.
  rewrite Forall_forall in Hsub. apply Hsub.
  by eapply list_elem_of_lookup_2.
Qed.

Example transactions_to_df_ex :
  transactions_to_df [ {["milk"; "bread"]}; ∅; {["bread"; "eggs"]} ]
  = Some (mkDF ["bread"; "eggs"; "milk"] [[1; 0; 1]; [0; 0; 0]; [1; 1; 0]]).
Proof. vm_compute. reflexivity. Qed.

Lemma indicator_row_empty cols : indicator_row cols ∅ = replicate (length cols) 0.
Proof.
  induction cols as [|c cols IH]; simpl; [done|].
  rewrite IH. by rewrite decide_False by set_solver.
Qed.

(** C9.  The encoder returns a table on every input.  A transaction
    that is the empty set gives a row of zeros, whatever the other
    transactions are, and the empty sequence of transactions gives the
    table without rows and without columns. *)
Theorem transactions_to_df_degenerate :
  (∀ transactions, is_Some (transactions_to_df transactions)) ∧
  (∀ before after, ∃ df,
     transactions_to_df (before ++ ∅ :: after) = Some df ∧
     data df !! length before = Some (replicate (length (columns df)) 0)) ∧
  all_items [] = [] ∧
  transactions_to_df [] = Some (mkDF [] []).
Proof.
  split; [|split; [|split]].
  - intros ts. rewrite transactions_to_df_eq. by eexists.
  - intros before after. eexists. split; [apply transactions_to_df_eq|]. simpl.
    rewrite list_lookup_fmap, list_lookup_middle by done. simpl.
    by rewrite indicator_row_empty.
  - reflexivity.
  - by rewrite transactions_to_df_eq.
Qed.

(** ** The cell parser *)

Example str_split_ex :
  str_split ", " "milk, bread, milk" = ["milk"; "bread"; "milk"]
  ∧ str_split ", " "milk,bread" = ["milk,bread"]
  ∧ str_split ", " "" = [""].
Proof. repeat split. Qed.

Lemma cell_transaction_elem_of cell x :
  x ∈ cell_transaction cell ↔ x ∈ str_split ", " cell.
Proof. unfold cell_transaction. apply elem_of_list_to_set. Qed.

Lemma cell_transaction_size cell :
  size (cell_transaction cell) = length (remove_dups (str_split ", " cell)).
Proof.
  unfold cell_transaction.
  rewrite <- (size_list_to_set (C := gset string) (remove_dups (str_split ", " cell)))
    by apply NoDup_remove_dups.
  f_equal. apply set_eq. intros x.
  by rewrite !elem_of_list_to_set, elem_of_remove_dups.
Qed.

Lemma append_assoc (a b c : string) : (a +:+ b) +:+ c = a +:+ (b +:+ c).
Proof.
  induction a as [|x a IH]; [done|].
  change (String x ((a +:+ b) +:+ c) = String x (a +:+ (b +:+ c))).
  by rewrite IH.
Qed.

Lemma append_nil_r (s : string) : s +:+ EmptyString = s.
Proof.
  induction s as [|x s IH]; [done|].
  change (String x (s +:+ EmptyString) = String x s). by rewrite IH.
Qed.

Lemma append_length (a b : string) :
  String.length (a +:+ b) = (String.length a + String.length b)%nat.
Proof.
  induction a as [|x a IH]; [done|].
  change (S (String.length (a +:+ b)) = S (String.length a + String.length b)).
  by rewrite IH.
Qed.

Lemma str_join_cons sep tok tok' tokens :
  str_join sep (tok :: tok' :: tokens) = tok +:+ sep +:+ str_join sep (tok' :: tokens).
Proof. reflexivity. Qed.

Lemma prefix_split (a b : string) :
  String.prefix a b = true → ∃ r, b = a +:+ r.
Proof.
  revert b. induction a as [|x a IH]; intros b; simpl.
  - intros _. by exists b.
  - destruct b as [|y b]; [done|]. cbn [String.prefix].
    destruct (Ascii.ascii_dec x y) as [->|]; [|done].
    intros [r ->]%IH. exists r. reflexivity.
Qed.

Lemma str_split_go_skip sep cur : ∀ passed s,
  str_split_go sep (String.length passed) cur (passed +:+ s)
  = str_split_go sep 0 cur s.
Proof.
  induction passed as [|c passed IH]; intros s; simpl; [|apply IH].
  by destruct s.
Qed.

Lemma str_split_go_cons sep skip cur s :
  ∃ tok tokens, str_split_go sep skip cur s = tok :: tokens.
Proof.
  revert skip cur. induction s as [|c s IH]; intros skip cur; cbn [str_split_go].
  { by eauto. }
  destruct skip as [|k]; [|apply IH].
  destruct (String.prefix sep (String c s)); [by eauto|apply IH].
Qed.

Lemma str_join_split_go sep n : ∀ s cur,
  sep ≠ EmptyString → (String.length s ≤ n)%nat →
  str_join sep (str_split_go sep 0 cur s) = cur +:+ s.
Proof.
  induction n as [|n IH]; intros s cur Hsep Hlen.
  { destruct s; [|simpl in Hlen; lia].
    cbn [str_split_go str_join]. by rewrite append_nil_r. }
  destruct s as [|c s].
  { cbn [str_split_go str_join]. by rewrite append_nil_r. }
  cbn [str_split_go].
  destruct (String.prefix sep (String c s)) eqn:Hpre.
  - destruct (prefix_split _ _ Hpre) as [r Hr].
    destruct sep as [|c' sep']; [done|].
    simpl in Hr. injection Hr as <- ->.
    cbn [String.length]. replace (S (String.length sep') - 1)%nat
      with (String.length sep') by lia.
    rewrite str_split_go_skip.
    destruct (str_split_go_cons (String c sep') 0 EmptyString r) as (tok & toks & Htoks).
    assert (Hjoin : str_join (String c sep') (str_split_go (String c sep') 0 EmptyString r)
                    = r).
    { rewrite IH; [done|done|].
      simpl in Hlen. rewrite append_length in Hlen. lia. }
    rewrite Htoks in Hjoin |- *.
    by rewrite str_join_cons, Hjoin.
  - rewrite IH; [|done|simpl in Hlen; lia].
    by rewrite append_assoc.
Qed.

(** Joining the tokens of a cell with the separator gives the cell back:
    the split loses nothing but the separators. *)
Lemma str_join_split (sep s : string) :
  sep ≠ EmptyString → str_join sep (str_split sep s) = s.
Proof.
  intros Hsep. unfold str_split.
  by rewrite (str_join_split_go sep (String.length s)).
Qed.

Lemma prefix_app_mono (sep v s : string) :
  String.prefix sep v = true → String.prefix sep (v +:+ s) = true.
Proof.
  intros [r ->]%prefix_split. rewrite append_assoc.
  generalize (r +:+ s). intros r'. clear.
  induction sep as [|c sep IH]; [by destruct r'|].
  change (String c sep +:+ r') with (String c (sep +:+ r')).
  cbn [String.prefix]. by destruct (Ascii.ascii_dec c c).
Qed.

Lemma no_start_contains sep cur s :
  sep ≠ EmptyString → no_start sep cur s → str_contains sep cur = false.
Proof.
  intros Hsep. induction cur as [|c cur IH]; intros Hns.
  - simpl. by destruct sep.
  - cbn [str_contains]. apply orb_false_iff. split.
    + destruct (String.prefix sep (String c cur)) eqn:Hp; [|done].
      apply (prefix_app_mono _ _ s) in Hp.
      by rewrite (Hns EmptyString (String c cur)) in Hp.
    + apply IH. intros u v -> Hv. by apply (Hns (String c u) v).
Qed.

Lemma no_start_snoc sep cur c s :
  no_start sep cur (String c s) → String.prefix sep (String c s) = false →
  no_start sep (cur +:+ String c EmptyString) s.
Proof.
  intros Hns Hp u v Huv Hv.
  revert cur Hns Huv. induction u as [|x u IH]; intros cur Hns Huv.
  - change (EmptyString +:+ v) with v in Huv. subst v. rewrite append_assoc.
    change (String c EmptyString +:+ s) with (String c s).
    destruct cur as [|y cur]; [exact Hp|].
    by apply (Hns EmptyString (String y cur)).
  - destruct cur as [|y cur].
    + change (EmptyString +:+ String c EmptyString) with (String c EmptyString) in Huv.
      change (String x u +:+ v) with (String x (u +:+ v)) in Huv.
      injection Huv as <- Huv. by destruct u, v.
    + change (String y cur +:+ String c EmptyString)
        with (String y (cur +:+ String c EmptyString)) in Huv.
      change (String x u +:+ v) with (String x (u +:+ v)) in Huv.
      injection Huv as <- Huv. apply (IH cur); [|done].
      intros u' v' -> Hv'. by apply (Hns (String y u') v').
Qed.

Lemma str_split_go_tokens sep n : ∀ s cur,
  sep ≠ EmptyString → (String.length s ≤ n)%nat → no_start sep cur s →
  Forall (λ tok, str_contains sep tok = false) (str_split_go sep 0 cur s).
Proof.
  induction n as [|n IH]; intros s cur Hsep Hlen Hns.
  { destruct s; [|simpl in Hlen; lia]. cbn [str_split_go].
    constructor; [|constructor]. by eapply no_start_contains. }
  destruct s as [|c s].
  { cbn [str_split_go]. constructor; [|constructor]. by eapply no_start_contains. }
  cbn [str_split_go].
  destruct (String.prefix sep (String c s)) eqn:Hpre.
  - constructor; [by eapply no_start_contains|].
    destruct (prefix_split _ _ Hpre) as [r Hr].
    destruct sep as [|c' sep']; [done|].
    change (String c' sep' +:+ r) with (String c' (sep' +:+ r)) in Hr.
    injection Hr as <- ->.
    cbn [String.length]. replace (S (String.length sep') - 1)%nat
      with (String.length sep') by lia.
    rewrite str_split_go_skip. apply IH; [done| |].
    + simpl in Hlen. rewrite append_length in Hlen. lia.
    + intros u v Huv Hv. by destruct u, v.
  - apply IH; [done|simpl in Hlen; lia|]. by apply no_start_snoc.
Qed.

Lemma str_split_go_plain sep : ∀ s cur,
  str_contains sep s = false → str_split_go sep 0 cur s = [cur +:+ s].
Proof.
  induction s as [|c s IH]; intros cur Hc.
  - cbn [str_split_go]. by rewrite append_nil_r.
  - cbn [str_contains] in Hc. apply orb_false_iff in Hc as [Hp Hc].
    cbn [str_split_go]. rewrite Hp, IH by done. by rewrite append_assoc.
Qed.

Lemma prefix_append (a r : string) : String.prefix a (a +:+ r) = true.
Proof.
  induction a as [|c a IH]; [by destruct r|].
  change (String c a +:+ r) with (String c (a +:+ r)).
  cbn [String.prefix]. by destruct (Ascii.ascii_dec c c).
Qed.

(** At an occurrence of the separator the token is closed. *)
Lemma str_split_go_sep (sep cur rest : string) :
  sep ≠ EmptyString →
  str_split_go sep 0 cur (sep +:+ rest) = cur :: str_split_go sep 0 EmptyString rest.
Proof.
  intros Hsep. destruct sep as [|c sep]; [done|].
  pose proof (prefix_append (String c sep) rest) as Hp.
  change (String c sep +:+ rest) with (String c (sep +:+ rest)) in Hp |- *.
  cbn [str_split_go]. rewrite Hp. f_equal.
  cbn [String.length]. replace (S (String.length sep) - 1)%nat
    with (String.length sep) by lia.
  apply str_split_go_skip.
Qed.

Section comma_space.
Import Stdlib.Strings.Ascii.

(** No [", "] begins at a character of a token that holds none, also
    when the token is followed by a separator: the comma that ends a
    token is followed by the comma of the separator, not by a space. *)
Lemma comma_space_not_at (c : ascii) (tok rest : string) :
  String.prefix ", " (String c tok) = false →
  String.prefix ", " (String c (tok +:+ ", " +:+ rest)) = false.
Proof.
  intros Hp. destruct tok as [|c' tok].
  - change (EmptyString +:+ ", " +:+ rest)
      with (String ","%char (String " "%char rest)).
    cbn [String.prefix]. destruct (ascii_dec ","%char c); [|done].
    by destruct (ascii_dec " "%char ","%char).
  - change (String c' tok +:+ ", " +:+ rest)
      with (String c' (tok +:+ ", " +:+ rest)).
    cbn [String.prefix] in Hp |- *.
    destruct (ascii_dec ","%char c); [|done].
    destruct (ascii_dec " "%char c'); [|done].
    by destruct tok.
Qed.
End comma_space.

(** A token without [", "] that is followed by [", "] is read as one
    token, and the scan goes on behind the separator. *)
Lemma str_split_go_token (rest : string) : ∀ tok cur,
  str_contains ", " tok = false →
  str_split_go ", " 0 cur (tok +:+ ", " +:+ rest)
  = (cur +:+ tok) :: str_split_go ", " 0 EmptyString rest.
Proof.
  induction tok as [|c tok IH]; intros cur Hc.
  - change (EmptyString +:+ ", " +:+ rest) with (", " +:+ rest).
    rewrite str_split_go_sep by done. by rewrite append_nil_r.
  - cbn [str_contains] in Hc. apply orb_false_iff in Hc as [Hp Hc].
    change (String c tok +:+ ", " +:+ rest) with (String c (tok +:+ ", " +:+ rest)).
    cbn [str_split_go]. rewrite comma_space_not_at by done.
    rewrite IH by done. by rewrite append_assoc.
Qed.

(** Splitting what was joined gives the tokens back, when no token
    holds the separator. *)
Lemma str_split_join : ∀ tokens,
  tokens ≠ [] → Forall (λ tok, str_contains ", " tok = false) tokens →
  str_split ", " (str_join ", " tokens) = tokens.
Proof.
  induction tokens as [|tok tokens IH]; intros Hne Hfree; [done|].
  apply Forall_cons in Hfree as [Htok Hfree].
  destruct tokens as [|tok' tokens].
  - cbn [str_join]. unfold str_split. by rewrite str_split_go_plain.
  - rewrite str_join_cons. unfold str_split.
    rewrite str_split_go_token by done.
    change (EmptyString +:+ tok) with tok. f_equal. by apply IH.
Qed.

Lemma parse_transactions_str (cells : list string) :
  parse_transactions (CellStr <$> cells) = inr (cell_transaction <$> cells).
Proof.
  induction cells as [|cell cells IH]; [done|].
  rewrite !fmap_cons. cbn [parse_transactions parse_cell]. by rewrite IH.
Qed.

(** C10.  The tokens of a cell are the pieces that [", "] separates in
    it: joined with [", "] they give the cell back, none of them holds
    [", "], and they are the only such pieces, for whenever the cell is
    the join of pieces without [", "], the split gives those pieces.
    The transaction read from the cell is the set of these tokens: a
    token is a member however often the cell repeats it, so the
    transaction has as many elements as the cell has distinct tokens.
    When every cell of the column is text, the parser gives one
    transaction per cell, and in the encoded table the row of the cell
    holds a 1 in exactly one column per token, the only column that
    carries the token as its label, and the row sums to the number of
    distinct tokens. *)
Theorem cell_transaction_items_unique (cell : string) :
  str_join ", " (str_split ", " cell) = cell ∧
  Forall (λ tok, str_contains ", " tok = false) (str_split ", " cell) ∧
  (∀ tokens,
     tokens ≠ [] → Forall (λ tok, str_contains ", " tok = false) tokens →
     str_join ", " tokens = cell →
     str_split ", " cell = tokens ∧
     cell_transaction cell = list_to_set tokens ∧
     size (cell_transaction cell) = length (remove_dups tokens)) ∧
  (∀ x, x ∈ cell_transaction cell ↔ x ∈ str_split ", " cell) ∧
  size (cell_transaction cell) = length (remove_dups (str_split ", " cell)) ∧
  NoDup (elements (cell_transaction cell)) ∧
  ∀ before after, ∃ transactions df row,
    parse_transactions (CellStr <$> (before ++ cell :: after)) = inr transactions ∧
    length transactions = length (before ++ cell :: after) ∧
    transactions !! length before = Some (cell_transaction cell) ∧
    transactions_to_df transactions = Some df ∧
    data df !! length before = Some row ∧
    row_sum row = Z.of_nat (length (remove_dups (str_split ", " cell))) ∧
    ∀ x, x ∈ str_split ", " cell →
      ∃ j, columns df !! j = Some x ∧ row !! j = Some 1 ∧
           ∀ j', columns df !! j' = Some x → j' = j.
Proof.
  split; [by apply str_join_split|].
  split.
  { apply (str_split_go_tokens ", " (String.length cell)); [done|done|].
    intros u v Huv Hv. by destruct u, v. }
  split.
  { intros tokens Hne Hfree <-.
    assert (str_split ", " (str_join ", " tokens) = tokens) as Hsplit
      by by apply str_split_join.
    split; [done|]. split.
    - unfold cell_transaction. by rewrite Hsplit.
    - by rewrite cell_transaction_size, Hsplit. }
  split; [apply cell_transaction_elem_of|].
  split; [apply cell_transaction_size|].
  split; [apply NoDup_elements|].
  intros before after.
  set (ts := cell_transaction <$> (before ++ cell :: after)).
  assert (Hcell : ts !! length before = Some (cell_transaction cell)).
  { unfold ts. rewrite fmap_app, fmap_cons.
    rewrite <- (length_fmap cell_transaction before).
    by apply list_lookup_middle. }
  assert (Hsub : ∀ x, x ∈ cell_transaction cell → x ∈ all_items ts).
  { pose proof (all_items_covers ts) as Hall. rewrite Forall_forall in Hall.
    apply Hall. by eapply list_elem_of_lookup_2. }
  exists ts, (mkDF (all_items ts) (indicator_row (all_items ts) <$> ts)).
  exists (indicator_row (all_items ts) (cell_transaction cell)).
  split; [apply parse_transactions_str|].
  split; [unfold ts; by rewrite length_fmap|].
  split; [done|].
  split; [apply transactions_to_df_eq|]. simpl.
  split; [by rewrite list_lookup_fmap, Hcell|].
  split.
  { rewrite <- cell_transaction_size.
    apply row_sum_indicator; [apply all_items_NoDup|done]. }
  intros x Hx. apply cell_transaction_elem_of in Hx.
  destruct (list_elem_of_lookup_1 _ _ (Hsub x Hx)) as [j Hj].
  exists j. split; [done|]. split.
  - rewrite (indicator_row_lookup _ _ _ _ Hj). by rewrite decide_True.
  - intros j' Hj'. eapply NoDup_lookup; eauto using all_items_NoDup.
Qed.

Example cell_transaction_ex :
  parse_transactions [CellStr "milk, bread, milk"; CellStr "eggs"]
  = inr [cell_transaction "milk, bread, milk"; cell_transaction "eggs"] ∧
  transactions_to_df [cell_transaction "milk, bread, milk"; cell_transaction "eggs"]
  = Some (mkDF ["bread"; "eggs"; "milk"] [[1; 0; 1]; [0; 1; 0]]) ∧
  parse_transactions [CellStr "milk, bread"; CellFloat nan; CellStr "eggs"]
  = inl AttributeError.
Proof. split; [reflexivity|]. split; [vm_compute|]; reflexivity. Qed.

(** ** The rule merger *)

Section drop_duplicates_facts.
Context {A K : Type} `{EqDecision K} (key : A → K).
Implicit Types (rows : frame A) (seen : list K) (r : Z * A).

Lemma drop_duplicates_go_sublist rows : ∀ seen,
  drop_duplicates_go key seen rows `sublist_of` rows.
Proof.
  induction rows as [|[i row] rows IH]; intros seen; simpl.
  - constructor.
  - destruct (decide (key row ∈ seen)).
    + apply sublist_cons, IH.
    + apply sublist_skip, IH.
Qed.

Lemma drop_duplicates_go_fresh rows : ∀ seen r,
  r ∈ drop_duplicates_go key seen rows → key r.2 ∉ seen.
Proof.
  induction rows as [|[i row] rows IH]; intros seen r; simpl.
  - by intros ?%elem_of_nil.
  - destruct (decide (key row ∈ seen)) as [Hin|Hnin].
    + apply IH.
    + intros [->|Hr]%elem_of_cons; [done|].
      apply IH in Hr. intros Hseen. apply Hr. by right.
Qed.

Lemma drop_duplicates_go_NoDup rows : ∀ seen,
  NoDup ((λ r, key r.2) <$> drop_duplicates_go key seen rows).
Proof.
  induction rows as [|[i row] rows IH]; intros seen; simpl.
  - constructor.
  - destruct (decide (key row ∈ seen)) as [Hin|Hnin]; [apply IH|].
    rewrite fmap_cons. constructor; [|apply IH]. simpl.
    intros (r & Hk & Hr)%list_elem_of_fmap.
    apply drop_duplicates_go_fresh in Hr. apply Hr. rewrite <- Hk. by left.
Qed.

Lemma drop_duplicates_go_covers rows : ∀ seen r,
  r ∈ rows → key r.2 ∉ seen →
  ∃ r', r' ∈ drop_duplicates_go key seen rows ∧ key r'.2 = key r.2.
Proof.
  induction rows as [|[i row] rows IH]; intros seen r; simpl.
  - by intros ?%elem_of_nil.
  - intros [->|Hr]%elem_of_cons Hfresh; simpl in *.
    + rewrite decide_False by done. exists (i, row). split; [by left|done].
    + destruct (decide (key row ∈ seen)) as [Hin|Hnin]; [by apply IH|].
      destruct (decide (key r.2 = key row)) as [Heq|Hne].
      * exists (i, row). split; [by left|done].
      * destruct (IH (key row :: seen) r Hr) as (r' & Hr' & Hk).
        { intros [?|?]%elem_of_cons; [by apply Hne|by apply Hfresh]. }
        exists r'. split; [by right|done].
Qed.

Lemma drop_duplicates_go_first rows : ∀ seen r,
  r ∈ drop_duplicates_go key seen rows →
  ∃ pre post, rows = pre ++ r :: post ∧ key r.2 ∉ (λ r, key r.2) <$> pre.
Proof.
  induction rows as [|[i row] rows IH]; intros seen r; simpl.
  - by intros ?%elem_of_nil.
  - destruct (decide (key row ∈ seen)) as [Hin|Hnin].
    + intros Hr. pose proof (drop_duplicates_go_fresh _ _ _ Hr) as Hfresh.
      destruct (IH _ _ Hr) as (pre & post & -> & Hpre).
      exists ((i, row) :: pre), post. split; [done|].
      rewrite fmap_cons. simpl. intros [Heq|?]%elem_of_cons; [|done].
      apply Hfresh. by rewrite Heq.
    + intros [->|Hr]%elem_of_cons.
      * exists [], rows. split; [done|]. by intros ?%elem_of_nil.
      * pose proof (drop_duplicates_go_fresh _ _ _ Hr) as Hfresh.
        destruct (IH _ _ Hr) as (pre & post & -> & Hpre).
        exists ((i, row) :: pre), post. split; [done|].
        rewrite fmap_cons. simpl. intros [Heq|?]%elem_of_cons; [|done].
        apply Hfresh. rewrite Heq. by left.
Qed.
End drop_duplicates_facts.

(** C2.  The merged table is the Apriori rules followed by the
    FP-Growth rules with some rows taken out, the rows left standing in
    their order and unchanged.  No two of its rows have the same
    antecedents and consequents, every pair of antecedents and
    consequents that occurs in either input occurs in it, and each of
    its rows is the first row of the concatenation with that pair. *)
Theorem final_rules_first_wins (apriori_rules fpg_rules : frame Rule) :
  final_rules apriori_rules fpg_rules `sublist_of` apriori_rules ++ fpg_rules ∧
  NoDup ((λ r, rule_key r.2) <$> final_rules apriori_rules fpg_rules) ∧
  (∀ r, r ∈ apriori_rules ++ fpg_rules →
     ∃ r', r' ∈ final_rules apriori_rules fpg_rules ∧ rule_key r'.2 = rule_key r.2) ∧
  (∀ r, r ∈ final_rules apriori_rules fpg_rules →
     ∃ pre post, apriori_rules ++ fpg_rules = pre ++ r :: post ∧
       rule_key r.2 ∉ (λ r, rule_key r.2) <$> pre).
Proof.
  unfold final_rules, drop_duplicates, pd_concat.
  split; [apply drop_duplicates_go_sublist|].
  split; [apply drop_duplicates_go_NoDup|].
  split.
  - intros r Hr. apply drop_duplicates_go_covers; [done|]. by intros ?%elem_of_nil.
  - intros r Hr. by eapply drop_duplicates_go_first.
Qed.

Example final_rules_ex :
  let r1 := mkRule {["a"]} {["b"]} 0.5 [] in
  let r2 := mkRule {["b"]} {["a"]} 0.75 [] in
  let r2' := mkRule {["b"]} {["a"]} 0.25 [2%float] in
  let r3 := mkRule {["c"]} {["a"]} 1 [] in
  final_rules (range_index [r1; r2]) (range_index [r2'; r3; r1])
  = [(0, r1); (1, r2); (1, r3)].
Proof. vm_compute. reflexivity. Qed.

(** ** The validated input loops *)

Section input_loop_facts.
Context {A : Type} (prompt : list piece) (body : string → verdict A).

Lemma input_loop_ret_inv lines : ∀ out a rest out',
  input_loop prompt body lines out = (Ret a, rest, out') →
  ∃ pre line, lines = pre ++ line :: rest ∧
    Forall (λ l, ∃ message, body l = Reject message) pre ∧ body line = Accept a.
Proof.
  induction lines as [|l lines IH]; intros out a rest out'; simpl.
  - discriminate.
  - destruct (body l) as [a'|message|e] eqn:Hl.
    + intros [= -> -> _]. exists [], l. by repeat split.
    + intros (pre & line & -> & Hpre & Hline)%IH.
      exists (l :: pre), line. repeat split; [|done].
      constructor; eauto.
    + discriminate.
Qed.

Lemma input_loop_rejected (message : string → list piece) pre : ∀ lines out,
  Forall (λ l, body l = Reject (message l)) pre →
  input_loop prompt body (pre ++ lines) out
  = input_loop prompt body lines
      (out ++ (pre ≫= λ line, [Prompt prompt; Print (message line)])).
Proof.
  induction pre as [|l pre IH]; intros lines out Hpre.
  - cbn [app mbind list_bind]. by rewrite app_nil_r.
  - apply Forall_cons in Hpre as [Hl Hpre].
    cbn [app input_loop]. rewrite Hl, IH by done.
    rewrite bind_cons. by rewrite <- app_assoc.
Qed.

Lemma accepts_exactly_intro (valid : string → Prop) (message : string → list piece) :
  (∀ line, match body line with
           | Accept _ => valid line
           | Reject m => ¬ valid line ∧ m = message line
           | Abort _ => False
           end) →
  accepts_exactly prompt body valid message.
Proof.
  intros Hbody.
  assert (Hrej : ∀ line, ¬ valid line → body line = Reject (message line)).
  { intros line Hv. specialize (Hbody line).
    destruct (body line) as [a|m|e]; [contradiction| |contradiction].
    by destruct Hbody as [_ ->]. }
  assert (Hacc : ∀ line, valid line → ∃ a, body line = Accept a).
  { intros line Hv. specialize (Hbody line).
    destruct (body line) as [a|m|e]; [by eexists| |contradiction].
    by destruct Hbody. }
  assert (Hpre : ∀ pre, Forall (λ l, ¬ valid l) pre →
                        Forall (λ l, body l = Reject (message l)) pre).
  { intros pre Hinvalid. eapply Forall_impl; [exact Hinvalid|apply Hrej]. }
  split; [|split; [|split; [|split]]].
  - intros line. split; [|apply Hacc].
    intros [a Ha]. specialize (Hbody line). by rewrite Ha in Hbody.
  - intros line rest out Hv. split; [by apply Hrej|].
    cbn [input_loop]. by rewrite (Hrej line Hv).
  - intros lines out a rest out' Hrun.
    destruct (input_loop_ret_inv _ _ _ _ _ Hrun) as (pre & line & -> & Hrejected & Hline).
    assert (Forall (λ l, ¬ valid l) pre) as Hinvalid.
    { eapply Forall_impl; [exact Hrejected|]. intros l [m Hl].
      specialize (Hbody l). rewrite Hl in Hbody. by destruct Hbody. }
    exists pre, line. split; [done|]. split; [done|].
    split; [specialize (Hbody line); by rewrite Hline in Hbody|]. split; [done|].
    rewrite (input_loop_rejected message) in Hrun by by apply Hpre.
    cbn [input_loop] in Hrun. rewrite Hline in Hrun.
    injection Hrun as <-. unfold asked. by rewrite app_assoc.
  - intros pre line rest out Hinvalid Hline.
    destruct (Hacc line Hline) as [a Ha]. exists a. split; [done|].
    rewrite (input_loop_rejected message) by by apply Hpre.
    cbn [input_loop]. rewrite Ha. unfold asked. by rewrite app_assoc.
  - intros pre out Hinvalid.
    rewrite <- (app_nil_r pre) at 1.
    rewrite (input_loop_rejected message) by by apply Hpre.
    cbn [input_loop]. unfold asked. by rewrite app_assoc.
Qed.
End input_loop_facts.

Section prompts_facts.
Variable py_int : string → option Z.
Variable py_float : string → option float.

Lemma dataset_body_cases available_datasets line :
  match dataset_body py_int available_datasets line with
  | Accept v =>
      py_int line = Some v.1 ∧ 1 ≤ v.1 ≤ Z.of_nat (length available_datasets) ∧
      available_datasets !! Z.to_nat (v.1 - 1) = Some v.2
  | Reject m =>
      (¬ ∃ choice, py_int line = Some choice ∧
                   1 ≤ choice ≤ Z.of_nat (length available_datasets)) ∧
      m = dataset_message py_int (length available_datasets) line
  | Abort _ => False
  end.
Proof.
  unfold dataset_body, dataset_message.
  destruct (py_int line) as [choice|] eqn:Hint.
  - destruct ((1 <=? choice) && (choice <=? Z.of_nat (length available_datasets)))
      eqn:Hrange.
    + apply andb_true_iff in Hrange as [H1 H2].
      apply Z.leb_le in H1, H2.
      destruct (lookup_lt_is_Some_2 available_datasets (Z.to_nat (choice - 1)))
        as [d Hd]; [lia|].
      rewrite Hd. simpl. auto.
    + split; [|done]. intros (c & [= <-] & H1 & H2).
      apply andb_false_iff in Hrange as [H|H]; apply Z.leb_gt in H; lia.
  - split; [|done]. intros (c & [=] & _).
Qed.

Lemma threshold_cases (x : float) :
  (0 <? x)%float && (x <=? 1)%float = true ↔ in_unit_interval x.
Proof. unfold in_unit_interval. apply andb_true_iff. Qed.

Lemma support_body_cases line :
  match support_body py_float line with
  | Accept x => py_float line = Some x ∧ in_unit_interval x
  | Reject m =>
      (¬ ∃ x, py_float line = Some x ∧ in_unit_interval x) ∧
      m = threshold_message py_float "Support must be between 0 and 1." line
  | Abort _ => False
  end.
Proof.
  unfold support_body, threshold_message. destruct (py_float line) as [x|] eqn:Hx.
  - destruct ((0 <? x)%float && (x <=? 1)%float) eqn:Hrange.
    + split; [done|]. by apply threshold_cases.
    + split; [|done]. intros (y & [= <-] & Hy%threshold_cases). congruence.
  - split; [|done]. intros (y & [=] & _).
Qed.

Lemma confidence_body_cases line :
  match confidence_body py_float line with
  | Accept x => py_float line = Some x ∧ in_unit_interval x
  | Reject m =>
      (¬ ∃ x, py_float line = Some x ∧ in_unit_interval x) ∧
      m = threshold_message py_float "Confidence must be between 0 and 1." line
  | Abort _ => False
  end.
Proof.
  unfold confidence_body, threshold_message. destruct (py_float line) as [x|] eqn:Hx.
  - destruct ((0 <? x)%float && (x <=? 1)%float) eqn:Hrange.
    + split; [done|]. by apply threshold_cases.
    + split; [|done]. intros (y & [= <-] & Hy%threshold_cases). congruence.
  - split; [|done]. intros (y & [=] & _).
Qed.

(** C6.  Whatever the conversions [int] and [float] make of a line:
    the dataset loop accepts a line exactly when it converts to an
    integer between 1 and the number of datasets, and the accepted value
    is that integer with the data set it numbers; each threshold loop
    accepts a line exactly when it converts to a float [x] with
    [0 < x <= 1], and the accepted value is that float.  A line that is
    not accepted never ends a loop: the loop prints the message of that
    line, the one for text that is no number or the one for a number
    out of range, and prompts again.  So on lines none of which is valid
    up to a first valid one, a loop returns the value of that line,
    leaves the lines behind it unread, and has written for every line
    turned down the prompt and its message, and then the last prompt;
    a loop that has produced a value has done just that; and on lines
    none of which is valid a loop turns all of them down in this way and
    stops only because the input is at its end, with [EOFError]. *)
Theorem input_loops_accept_exactly_valid (available_datasets : list string) :
  accepts_exactly dataset_prompt (dataset_body py_int available_datasets)
    (λ line, ∃ choice, py_int line = Some choice ∧
                       1 ≤ choice ≤ Z.of_nat (length available_datasets))
    (dataset_message py_int (length available_datasets)) ∧
  (∀ line choice selected_dataset,
     dataset_body py_int available_datasets line = Accept (choice, selected_dataset) →
     py_int line = Some choice ∧
     1 ≤ choice ≤ Z.of_nat (length available_datasets) ∧
     available_datasets !! Z.to_nat (choice - 1) = Some selected_dataset) ∧
  accepts_exactly support_prompt (support_body py_float)
    (λ line, ∃ x, py_float line = Some x ∧ in_unit_interval x)
    (threshold_message py_float "Support must be between 0 and 1.") ∧
  (∀ line x, support_body py_float line = Accept x →
     py_float line = Some x ∧ in_unit_interval x) ∧
  accepts_exactly confidence_prompt (confidence_body py_float)
    (λ line, ∃ x, py_float line = Some x ∧ in_unit_interval x)
    (threshold_message py_float "Confidence must be between 0 and 1.") ∧
  (∀ line x, confidence_body py_float line = Accept x →
     py_float line = Some x ∧ in_unit_interval x).
Proof.
  split; [|split; [|split; [|split; [|split]]]].
  - apply accepts_exactly_intro. intros line.
    pose proof (dataset_body_cases available_datasets line) as H.
    destruct (dataset_body _ _ _) as [v| |]; [|done..].
    destruct H as (H1 & H2 & _). eauto.
  - intros line choice d Hacc.
    pose proof (dataset_body_cases available_datasets line) as H.
    by rewrite Hacc in H.
  - apply accepts_exactly_intro. intros line.
    pose proof (support_body_cases line) as H.
    destruct (support_body _ _) as [x| |]; [|done..]. eauto.
  - intros line x Hacc. pose proof (support_body_cases line) as H.
    by rewrite Hacc in H.
  - apply accepts_exactly_intro. intros line.
    pose proof (confidence_body_cases line) as H.
    destruct (confidence_body _ _) as [x| |]; [|done..]. eauto.
  - intros line x Hacc. pose proof (confidence_body_cases line) as H.
    by rewrite Hacc in H.
Qed.
End prompts_facts.

(** A run of the dataset loop, with a toy reading of digits for [int]:
    a word, then a number out of range, then a valid choice. *)
Example select_dataset_ex :
  let py_int := λ s : string,
    if String.eqb s "0" then Some 0 else if String.eqb s "2" then Some 2
    else if String.eqb s "7" then Some 7 else None in
  select_dataset py_int ["a.csv"; "b.csv"] ["two"; "7"; "2"; "0.5"] []
  = (Ret (2, "b.csv"), ["0.5"],
     [ Prompt dataset_prompt; Print [Txt "Invalid input. Please enter a number."];
       Prompt dataset_prompt;
       Print [Txt "Please enter a number between 1 and "; Int 2; Txt "."];
       Prompt dataset_prompt ]).
Proof. reflexivity. Qed.

(** ** Folder setup and dataset discovery *)

Lemma append_inj_r (a x y : string) : a +:+ x = a +:+ y → x = y.
Proof. induction a as [|c a IH]; simpl; [done|]. intros [= H]. by apply IH. Qed.

Lemma input_dir_ne_output_dir base_dir : input_dir base_dir ≠ output_dir base_dir.
Proof.
  unfold input_dir, output_dir, os_path_join. simpl.
  destruct (String.eqb base_dir "" || endswith base_dir "/"); intros H.
  - by apply append_inj_r in H.
  - by apply append_inj_r in H.
Qed.

(** When folder setup goes through, the checks start in a world that
    differs from the initial one at the output path only. *)
Lemma startup_after_setup base_dir w :
  fs w !! output_dir base_dir ≠ Some File →
  ∃ w1, folder_setup base_dir w = (Ret (), w1) ∧
        startup base_dir w = dataset_locator base_dir w1 ∧
        fs w1 !! input_dir base_dir = fs w !! input_dir base_dir ∧
        stdin w1 = stdin w ∧ stdout w1 = stdout w.
Proof.
  intros Hfree. unfold startup, bind, folder_setup, makedirs_exist_ok.
  destruct (fs w !! output_dir base_dir) as [[|entries]|] eqn:Hout; [done| |].
  - by exists w.
  - eexists. split; [done|]. split; [done|]. simpl.
    split; [|done]. apply lookup_insert_ne.
    intros Heq. by apply (input_dir_ne_output_dir base_dir).
Qed.

Lemma for_each_print {A} (body : A → M unit) (line : A → list piece) xs : ∀ w,
  (∀ x, body x = print (line x)) →
  for_each xs body w
  = (Ret (), mkWorld (fs w) (stdin w) (stdout w ++ (Print ∘ line <$> xs))).
Proof.
  induction xs as [|x xs IH]; intros w Hbody; simpl.
  - unfold ret. rewrite app_nil_r. by destruct w.
  - unfold bind. rewrite Hbody. unfold print at 1. simpl.
    rewrite IH by done. simpl. by rewrite <- app_assoc.
Qed.

Lemma filter_nil_Forall {A} (P : A → Prop) `{∀ x, Decision (P x)} (xs : list A) :
  filter P xs = [] ↔ Forall (λ x, ¬ P x) xs.
Proof.
  induction xs as [|x xs IH]; simpl.
  - split; [constructor|done].
  - rewrite filter_cons. destruct (decide (P x)) as [Hx|Hx].
    + split; [done|]. intros [? _]%Forall_cons. contradiction.
    + rewrite IH. split; [by constructor|]. by intros [_ ?]%Forall_cons.
Qed.

Lemma listing_events (available_datasets : list string) :
  Print ∘ (λ p : nat * string, [Int (Z.of_nat p.1); Txt ". "; Txt p.2])
    <$> enumerate_from 1 available_datasets
  = imap (λ i dataset, Print [Int (Z.of_nat (1 + i)); Txt ". "; Txt dataset])
         available_datasets.
Proof. unfold enumerate_from. rewrite fmap_imap. by apply imap_ext. Qed.

Lemma check_input_dir_missing base_dir w :
  fs w !! input_dir base_dir = None →
  check_input_dir base_dir w
  = (Exit 1, mkWorld (fs w) (stdin w) (stdout w ++ missing_dir_report base_dir)).
Proof.
  intros Hnone. unfold check_input_dir, bind, os_path_exists.
  rewrite Hnone, bool_decide_false by (by intros [? ?]). simpl.
  unfold missing_dir_report. by rewrite <- app_assoc.
Qed.

Lemma check_input_dir_present base_dir w :
  is_Some (fs w !! input_dir base_dir) → check_input_dir base_dir w = (Ret (), w).
Proof.
  intros Hsome. unfold check_input_dir, bind, os_path_exists.
  by rewrite bool_decide_true.
Qed.

Lemma list_datasets_dir base_dir w entries :
  fs w !! input_dir base_dir = Some (Dir entries) →
  list_datasets base_dir w =
    match filter (λ f, endswith f ".csv" = true) entries with
    | [] => (Exit 1, mkWorld (fs w) (stdin w) (stdout w ++ no_data_report))
    | available_datasets =>
        (Ret available_datasets,
         mkWorld (fs w) (stdin w) (stdout w ++ datasets_listing available_datasets))
    end.
Proof.
  intros Hdir. unfold list_datasets, bind at 1, os_listdir. rewrite Hdir.
  destruct (filter _ entries) as [|d ds] eqn:Hfilter; [done|].
  unfold bind at 1. unfold print at 1.
  unfold bind.
  rewrite (for_each_print _ (λ p, [Int (Z.of_nat p.1); Txt ". "; Txt p.2]));
    [|by intros [i dataset]].
  unfold ret, datasets_listing. cbn [fs stdin stdout].
  by rewrite listing_events, <- app_assoc.
Qed.

(** C7.  With nothing at the input path the locator prints a message
    that carries the path and leaves with status 1.  With a directory
    there that has no entry ending in [.csv] it prints that no data set
    was found and leaves with status 1.  These are the only states in
    which the two checks end the run: with an entry ending in [.csv] the
    locator returns the data sets, in the order of the listing. *)
Theorem dataset_locator_checks (base_dir : string) (w : world) :
  (fs w !! input_dir base_dir = None →
     dataset_locator base_dir w
     = (Exit 1, mkWorld (fs w) (stdin w) (stdout w ++ missing_dir_report base_dir)) ∧
     ∃ line, Print line ∈ missing_dir_report base_dir ∧ Txt (input_dir base_dir) ∈ line) ∧
  (∀ entries,
     fs w !! input_dir base_dir = Some (Dir entries) →
     Forall (λ f, endswith f ".csv" ≠ true) entries →
     dataset_locator base_dir w
     = (Exit 1, mkWorld (fs w) (stdin w) (stdout w ++ no_data_report))) ∧
  (∀ entries,
     fs w !! input_dir base_dir = Some (Dir entries) →
     Exists (λ f, endswith f ".csv" = true) entries →
     ∃ available_datasets,
       available_datasets = filter (λ f, endswith f ".csv" = true) entries ∧
       available_datasets ≠ [] ∧
       dataset_locator base_dir w
       = (Ret available_datasets,
          mkWorld (fs w) (stdin w) (stdout w ++ datasets_listing available_datasets))) ∧
  ((∃ code, (dataset_locator base_dir w).1 = Exit code) ↔
     fs w !! input_dir base_dir = None ∨
     ∃ entries, fs w !! input_dir base_dir = Some (Dir entries) ∧
                Forall (λ f, endswith f ".csv" ≠ true) entries).
Proof.
  assert (Hdir : ∀ entries, fs w !! input_dir base_dir = Some (Dir entries) →
            dataset_locator base_dir w = list_datasets base_dir w).
  { intros entries Hdir. unfold dataset_locator, bind.
    by rewrite check_input_dir_present by (by rewrite Hdir). }
  assert (Hmissing : fs w !! input_dir base_dir = None →
            dataset_locator base_dir w
            = (Exit 1, mkWorld (fs w) (stdin w) (stdout w ++ missing_dir_report base_dir))).
  { intros Hnone. unfold dataset_locator, bind.
    by rewrite check_input_dir_missing. }
  assert (Hempty : ∀ entries, fs w !! input_dir base_dir = Some (Dir entries) →
            Forall (λ f, endswith f ".csv" ≠ true) entries →
            dataset_locator base_dir w
            = (Exit 1, mkWorld (fs w) (stdin w) (stdout w ++ no_data_report))).
  { intros entries Hd Hnone. rewrite (Hdir _ Hd), (list_datasets_dir _ _ _ Hd).
    apply (filter_nil_Forall (λ f, endswith f ".csv" = true)) in Hnone.
    by rewrite Hnone. }
  assert (Hfound : ∀ entries, fs w !! input_dir base_dir = Some (Dir entries) →
            filter (λ f, endswith f ".csv" = true) entries ≠ [] →
            dataset_locator base_dir w
            = (Ret (filter (λ f, endswith f ".csv" = true) entries),
               mkWorld (fs w) (stdin w)
                 (stdout w ++ datasets_listing
                                (filter (λ f, endswith f ".csv" = true) entries)))).
  { intros entries Hd Hne. rewrite (Hdir _ Hd), (list_datasets_dir _ _ _ Hd).
    by destruct (filter _ entries). }
  split; [|split; [|split]].
  - intros Hnone. split; [by apply Hmissing|].
    eexists. split; [by left|]. right. by left.
  - exact Hempty.
  - intros entries Hd Hex.
    assert (filter (λ f, endswith f ".csv" = true) entries ≠ []) as Hne.
    { intros Hnil%(filter_nil_Forall (λ f, endswith f ".csv" = true)).
      apply Exists_exists in Hex as (f & Hf & Hcsv).
      rewrite Forall_forall in Hnil. by apply (Hnil f). }
    eexists. split; [done|]. split; [done|]. by apply Hfound.
  - split.
    + intros [code Hexit].
      destruct (fs w !! input_dir base_dir) as [[|entries]|] eqn:Hd; [|right|by left].
      * exfalso. revert Hexit. unfold dataset_locator, bind.
        rewrite check_input_dir_present by (by rewrite Hd).
        unfold list_datasets, bind, os_listdir. by rewrite Hd.
      * exists entries. split; [done|].
        apply (filter_nil_Forall (λ f, endswith f ".csv" = true)).
        destruct (filter (λ f, endswith f ".csv" = true) entries) eqn:Hfilter; [done|].
        exfalso. rewrite (Hfound entries) in Hexit; [done..|by rewrite Hfilter].
    + intros [Hnone|(entries & Hd & Hnone)]; exists 1.
      * by rewrite Hmissing.
      * by rewrite (Hempty entries).
Qed.

Example dataset_locator_ex :
  let w := mkWorld {[ "/srv/app/transactions" := Dir ["amazon.csv"; "notes.txt"; "bestbuy.csv"] ]}
                   [] [] in
  dataset_locator "/srv/app" w
  = (Ret ["amazon.csv"; "bestbuy.csv"],
     mkWorld (fs w) []
       [ Print [Txt (nl +:+ "=== Available Retailer Datasets ===")];
         Print [Int 1; Txt ". "; Txt "amazon.csv"];
         Print [Int 2; Txt ". "; Txt "bestbuy.csv"] ]).
Proof. reflexivity. Qed.

(** ** The error path of a missing input directory *)







(** ** The result reporter *)

Lemma for_each_events {A} (body : A → M unit) (events : A → list event) xs : ∀ w,
  (∀ x w, body x w = (Ret (), mkWorld (fs w) (stdin w) (stdout w ++ events x))) →
  for_each xs body w
  = (Ret (), mkWorld (fs w) (stdin w) (stdout w ++ (xs ≫= events))).
Proof.
  induction xs as [|x xs IH]; intros w Hbody; simpl.
  - unfold ret. rewrite app_nil_r. by destruct w.
  - unfold bind. rewrite Hbody, IH by done. simpl. by rewrite <- app_assoc.
Qed.

Lemma display_rules_nonempty rules_df w :
  rules_df ≠ [] →
  display_rules rules_df w
  = (Ret (), mkWorld (fs w) (stdin w)
               (stdout w ++ rules_header :: (rules_df ≫= λ p, rule_lines p.1 p.2))).
Proof.
  intros Hne. unfold display_rules, bind at 1, print at 1.
  destruct rules_df as [|p rules_df]; [done|].
  rewrite (for_each_events _ (λ p, rule_lines p.1 p.2)).
  - cbn [fs stdin stdout]. by rewrite <- app_assoc.
  - intros [i row] w'. unfold bind, print, rule_lines. simpl.
    by rewrite <- app_assoc.
Qed.

Lemma rule_lines_lookup rules : ∀ start k r,
  rules !! k = Some r →
  (imap (λ i row, (Z.of_nat (start + i), row)) rules ≫= λ p, rule_lines p.1 p.2)
    !! (2 * k)%nat
  = Some (Print [Txt "Rule "; Int (Z.of_nat (start + k) + 1); Txt ": ";
                 Lst (elements (antecedents r)); Txt " -> ";
                 Lst (elements (consequents r))]) ∧
  (imap (λ i row, (Z.of_nat (start + i), row)) rules ≫= λ p, rule_lines p.1 p.2)
    !! (2 * k + 1)%nat
  = Some (Print [Txt "Confidence: "; Flt 2 (confidence r * 100)%float;
                 Txt ("%" +:+ nl)]).
Proof.
  induction rules as [|r0 rules IH]; intros start k r Hk; [done|].
  rewrite imap_cons, bind_cons.
  destruct k as [|k]; simpl in Hk.
  - injection Hk as ->. replace (start + 0)%nat with start by lia. done.
  - replace (2 * S k)%nat with (S (S (2 * k))) by lia.
    replace (S (S (2 * k)) + 1)%nat with (S (S (2 * k + 1))) by lia.
    cbn [rule_lines app lookup list_lookup].
    destruct (IH (S start) k r Hk) as [H1 H2].
    replace (S start + k)%nat with (start + S k)%nat in H1 by lia.
    split.
    + etrans; [|exact H1]. f_equal. f_equal. apply imap_ext.
      intros i x _. simpl. do 2 f_equal. lia.
    + etrans; [|exact H2]. f_equal. f_equal. apply imap_ext.
      intros i x _. simpl. do 2 f_equal. lia.
Qed.

Lemma rule_lines_length (rules_df : frame Rule) :
  length (rules_df ≫= λ p, rule_lines p.1 p.2) = (2 * length rules_df)%nat.
Proof.
  induction rules_df as [|p rules_df IH]; [done|].
  rewrite bind_cons, length_app, IH. simpl. lia.
Qed.

(** C8, as stated, fails: on the empty rule table the notice is not the
    only line printed, the heading comes before it. *)
Lemma display_rules_empty_prints_heading :
  stdout (display_rules [] (mkWorld ∅ [] [])).2
  = [ Print [Txt (nl +:+ "Final Association Rules:")];
      Print [Txt "No rules found for given thresholds."] ] ∧
  stdout (display_rules [] (mkWorld ∅ [] [])).2
  ≠ [ Print [Txt "No rules found for given thresholds."] ].
Proof. split; [reflexivity|discriminate]. Qed.

(** C8, amended.  [display_rules] first prints the heading
    [Final Association Rules:].  For the empty rule table it then
    prints the notice and nothing more.  For a table of [n > 0] rules as
    the rule generator returns it (labels 0 to n-1) it prints two lines
    per rule and nothing more: for the rule at position [k], counted
    from 0, the line with the index [k + 1], the list of antecedents
    and the list of consequents, and then the line with 100 times the
    confidence under the format with two decimals, followed by the
    percent sign. *)
Theorem display_rules_output (rules : list Rule) (w : world) :
  display_rules [] w
  = (Ret (), mkWorld (fs w) (stdin w) (stdout w ++ [rules_header; no_rules_notice])) ∧
  (rules ≠ [] →
   ∃ body,
     display_rules (range_index rules) w
     = (Ret (), mkWorld (fs w) (stdin w) (stdout w ++ rules_header :: body)) ∧
     length body = (2 * length rules)%nat ∧
     ∀ k r, rules !! k = Some r →
       body !! (2 * k)%nat
       = Some (Print [Txt "Rule "; Int (Z.of_nat k + 1); Txt ": ";
                      Lst (elements (antecedents r)); Txt " -> ";
                      Lst (elements (consequents r))]) ∧
       body !! (2 * k + 1)%nat
       = Some (Print [Txt "Confidence: "; Flt 2 (confidence r * 100)%float;
                      Txt ("%" +:+ nl)])).
Proof.
  split.
  - unfold display_rules, bind, print. simpl. by rewrite <- app_assoc.
  - intros Hne. eexists. split; [|split].
    + apply display_rules_nonempty. by destruct rules.
    + rewrite rule_lines_length. unfold range_index. by rewrite length_imap.
    + intros k r Hk. apply (rule_lines_lookup rules 0 k r Hk).
Qed.

Example display_rules_ex :
  let r1 := mkRule {["tea"]} {["milk"]} 0.75 [] in
  let r2 := mkRule {["milk"]} {["tea"]} 0.5 [] in
  stdout (display_rules (range_index [r1; r2]) (mkWorld ∅ [] [])).2
  = [ Print [Txt (nl +:+ "Final Association Rules:")];
      Print [Txt "Rule "; Int 1; Txt ": "; Lst ["tea"]; Txt " -> "; Lst ["milk"]];
      Print [Txt "Confidence: "; Flt 2 75; Txt ("%" +:+ nl)];
      Print [Txt "Rule "; Int 2; Txt ": "; Lst ["milk"]; Txt " -> "; Lst ["tea"]];
      Print [Txt "Confidence: "; Flt 2 50; Txt ("%" +:+ nl)] ].
Proof. vm_compute. reflexivity. Qed.



Lemma itemset_rows_output n_rows (rows : frame ItemsetRow) counts :
  Forall2 (λ p count, shown_count n_rows p.2 = inr count) rows counts →
  ∀ w,
    for_each rows (λ '(_, row),
      let items := elements (itemsets row) in
      match shown_count n_rows row with
      | inr count => print [Lst items; Txt " : "; Int count]
      | inl e => raise e
      end) w
    = (Ret (), mkWorld (fs w) (stdin w)
                 (stdout w ++ zip_with (λ p count, itemset_line p.2 count) rows counts)).
Proof.
  induction 1 as [|[i row] count rows counts Hrow Hrest IH]; intros w;
    cbn [for_each zip_with].
  - unfold ret. rewrite app_nil_r. by destruct w.
  - unfold bind at 1. simpl in Hrow. rewrite Hrow. unfold print at 1.
    rewrite IH. cbn [fs stdin stdout]. by rewrite <- app_assoc.
Qed.

(** What [display_top_itemsets] prints when every count can be formed:
    the two heading lines and one line for each of the first [top_n]
    rows, with the count cut down to an integer. *)
Lemma display_top_itemsets_output n_rows itemsets_df table_name top_n counts w :
  Forall2 (λ p count, shown_count n_rows p.2 = inr count)
          (df_head top_n itemsets_df) counts →
  display_top_itemsets n_rows itemsets_df table_name top_n w
  = (Ret (), mkWorld (fs w) (stdin w)
               (stdout w ++ Print [Txt nl; Txt table_name; Txt ":"]
                  :: Print [Txt "Itemset | Count"]
                  :: zip_with (λ p count, itemset_line p.2 count)
                              (df_head top_n itemsets_df) counts)).
Proof.
  intros Hcounts. unfold display_top_itemsets, bind at 1, print at 1.
  unfold bind at 1, print at 1. cbn [fs stdin stdout].
  rewrite (itemset_rows_output _ _ _ Hcounts). cbn [fs stdin stdout].
  by rewrite <- !app_assoc.
Qed.

(** C3, on the code: a table of 49 transactions and an itemset found in
    one of them, so of support 1/49.  The product of the support and 49
    is the float just below 1; [display_top_itemsets] shows the count 0
    for it, where rounding gives 1. *)
Theorem display_top_itemsets_count_truncated :
  let row := mkItemsetRow {["tea"]} (1 / 49)%float in
  display_top_itemsets 49 (range_index [row]) "Table Apriori" default_top_n
    (mkWorld ∅ [] [])
  = (Ret (), mkWorld ∅ [] [ Print [Txt nl; Txt "Table Apriori"; Txt ":"];
                            Print [Txt "Itemset | Count"];
                            Print [Lst ["tea"]; Txt " : "; Int 0] ]) ∧
  shown_count 49 row = inr 0 ∧
  py_round (support row * float_of_nat 49)%float = inr 1.
Proof.
  cbv zeta. split; [|split].
  - rewrite (display_top_itemsets_output _ _ _ _ [0]).
    + vm_compute. reflexivity.
    + repeat constructor.
  - vm_compute. reflexivity.
  - vm_compute. reflexivity.
Qed.

(** ** The result persister *)

Example dataset_prefix_ex : dataset_prefix "groceries.csv" = "groceries".
Proof. reflexivity. Qed.


(** C4, on the code: for a data set whose name carries [.csv] twice the
    prefix loses both, and the four files are named after the shorter
    prefix, not after the name with its extension cut off. *)
Theorem dataset_prefix_drops_inner_extension :
  let selected_dataset := "shop.csv.bak.csv" in
  endswith selected_dataset ".csv" = true ∧
  dataset_prefix selected_dataset = "shop.bak" ∧
  spec_dataset_prefix selected_dataset = "shop.csv.bak" ∧
  result_paths "/srv/app/results" (dataset_prefix selected_dataset)
  = [ "/srv/app/results/shop.bak_apriori_itemsets.csv";
      "/srv/app/results/shop.bak_apriori_rules.csv";
      "/srv/app/results/shop.bak_fpgrowth_itemsets.csv";
      "/srv/app/results/shop.bak_fpgrowth_rules.csv" ].
Proof. cbv zeta. repeat split. Qed.

Example save_results_ex :
  let w := mkWorld {[ "/srv/app/results" := Dir [] ]} [] [] in
  dom (fs (save_results "/srv/app" "groceries.csv" w).2)
  = {[ "/srv/app/results";
       "/srv/app/results/groceries_apriori_itemsets.csv";
       "/srv/app/results/groceries_apriori_rules.csv";
       "/srv/app/results/groceries_fpgrowth_itemsets.csv";
       "/srv/app/results/groceries_fpgrowth_rules.csv" ]}.
Proof. vm_compute. reflexivity. Qed.

(** * Part IV: further properties *)

(** ** The encoder, read backwards and by column *)

Lemma decode_row_cons c cols v row :
  decode_row (c :: cols) (v :: row)
  = (if decide (v = 1) then {[c]} else ∅) ∪ decode_row cols row.
Proof.
  unfold decode_row. simpl. destruct (decide (v = 1)); simpl; [done|].
  by rewrite (left_id_L ∅ (∪)).
Qed.

Lemma decode_indicator_row cols t :
  decode_row cols (indicator_row cols t) = t ∩ list_to_set cols.
Proof.
  induction cols as [|c cols IH].
  - apply set_eq. intros x. unfold decode_row. simpl.
    rewrite elem_of_intersection, !elem_of_empty. tauto.
  - change (indicator_row (c :: cols) t)
      with ((if decide (c ∈ t) then 1 else 0) :: indicator_row cols t).
    rewrite decode_row_cons, IH.
    apply set_eq. intros x.
    rewrite elem_of_union, !elem_of_intersection, list_to_set_cons, elem_of_union,
      elem_of_singleton.
    destruct (decide (c ∈ t)) as [Hc|Hc]; simpl.
    + rewrite elem_of_singleton. split; [|tauto].
      intros [->|[? ?]]; tauto.
    + rewrite elem_of_empty. split; [tauto|].
      intros [Hx [->|?]]; [contradiction|tauto].
Qed.

Lemma column_sum_indicator cols ts j c :
  cols !! j = Some c →
  column_sum (mkDF cols (indicator_row cols <$> ts)) j
  = Z.of_nat (length (filter (λ t : gset string, c ∈ t) ts)).
Proof.
  intros Hj. unfold column_sum. simpl.
  induction ts as [|t ts IH]; [done|].
  rewrite !fmap_cons, filter_cons. cbn [foldr].
  rewrite IH, (indicator_row_lookup _ _ _ _ Hj). simpl.
  destruct (decide (c ∈ t)); simpl; lia.
Qed.

(** X1.  The table loses nothing: reading off the columns that hold a 1
    in row [i] gives transaction [i] back, so two transactions have the
    same row exactly when they are the same set; and every entry of the
    table is 0 or 1. *)
Theorem transactions_to_df_decodes (transactions : list (gset string)) :
  ∃ df, transactions_to_df transactions = Some df ∧
    (∀ i t, transactions !! i = Some t →
       ∃ row, data df !! i = Some row ∧ decode_row (columns df) row = t) ∧
    (∀ i i' t t' row,
       transactions !! i = Some t → transactions !! i' = Some t' →
       data df !! i = Some row → data df !! i' = Some row → t = t') ∧
    (∀ i row v, data df !! i = Some row → v ∈ row → v = 0 ∨ v = 1).
Proof.
  eexists. split; [apply transactions_to_df_eq|]. simpl.
  assert (Hdec : ∀ i t, transactions !! i = Some t →
            decode_row (all_items transactions)
              (indicator_row (all_items transactions) t) = t).
  { intros i t Hi. rewrite decode_indicator_row.
    pose proof (all_items_covers transactions) as Hsub.
    rewrite Forall_forall in Hsub.
    specialize (Hsub t (list_elem_of_lookup_2 _ _ _ Hi)).
    apply set_eq. intros x. rewrite elem_of_intersection, elem_of_list_to_set.
    split; [by intros [? _]|]. intros Hx. split; [done|by apply Hsub]. }
  split; [|split].
  - intros i t Hi. eexists. rewrite list_lookup_fmap, Hi. split; [done|]. eauto.
  - intros i i' t t' row Hi Hi'. rewrite !list_lookup_fmap, Hi, Hi'. simpl.
    intros [= <-] [= Heq].
    rewrite <- (Hdec i t Hi), <- (Hdec i' t' Hi'). by rewrite Heq.
  - intros i row v. rewrite list_lookup_fmap.
    destruct (transactions !! i) as [t|]; [|done]. simpl. intros [= <-].
    unfold indicator_row. intros (c & -> & _)%list_elem_of_fmap.
    destruct (decide (c ∈ t)); auto.
Qed.

(** X2.  The sum of the column of an item is the number of transactions
    that hold the item, the count from which the mining library forms
    the item's support; no column sums to 0. *)
Theorem transactions_to_df_column_sums (transactions : list (gset string)) :
  ∃ df, transactions_to_df transactions = Some df ∧
    ∀ j c, columns df !! j = Some c →
      column_sum df j = Z.of_nat (length (filter (λ t : gset string, c ∈ t) transactions)) ∧
      0 < column_sum df j.
Proof.
  eexists. split; [apply transactions_to_df_eq|]. simpl.
  intros j c Hj. rewrite (column_sum_indicator _ _ _ _ Hj). split; [done|].
  apply list_elem_of_lookup_2, all_items_elem_of in Hj as (t & Ht & Hc).
  assert (t ∈ filter (λ t : gset string, c ∈ t) transactions) as Hin.
  { by apply list_elem_of_filter. }
  destruct (filter _ transactions); [by apply elem_of_nil in Hin|]. simpl. lia.
Qed.

(** ** The cell parser: what the tokens are *)

Lemma parse_transactions_not_str before t after :
  (∀ s, t ≠ CellStr s) →
  parse_transactions (before ++ t :: after) = inl AttributeError.
Proof.
  intros Ht. induction before as [|t' before IH].
  - cbn [app parse_transactions]. destruct t as [s| |]; [by destruct (Ht s)|done..].
  - cbn [app parse_transactions]. rewrite IH. by destruct t' as [s| |].
Qed.

(** X3.  Splitting a cell at [", "] loses nothing but the separators:
    joining the tokens with [", "] gives the cell back.  There is always
    at least one token, so no transaction is empty, and no token
    contains [", "].  A cell without the separator is one token.  The
    parser gives a result only when every value of the column is text,
    and then one transaction per value: a value that is a number, as
    the [nan] of an empty field is, ends it with [AttributeError]
    wherever it stands. *)
Theorem cell_split_tokens (cell : string) :
  str_join ", " (str_split ", " cell) = cell ∧
  str_split ", " cell ≠ [] ∧
  cell_transaction cell ≠ ∅ ∧
  Forall (λ tok, str_contains ", " tok = false) (str_split ", " cell) ∧
  (str_contains ", " cell = false → cell_transaction cell = {[ cell ]}) ∧
  (∀ cells, parse_transactions (CellStr <$> cells) = inr (cell_transaction <$> cells)) ∧
  (∀ before t after,
     (∀ s, t ≠ CellStr s) →
     parse_transactions (before ++ t :: after) = inl AttributeError) ∧
  (∀ cells transactions,
     parse_transactions cells = inr transactions →
     ∃ texts, cells = CellStr <$> texts ∧ transactions = cell_transaction <$> texts).
Proof.
  split; [by apply str_join_split|].
  destruct (str_split_go_cons ", " 0 EmptyString cell) as (tok & toks & Htoks).
  split; [unfold str_split; by rewrite Htoks|].
  split.
  { unfold cell_transaction, str_split. rewrite Htoks, list_to_set_cons.
    intros Hempty. apply (not_elem_of_empty (C := gset string) tok).
    rewrite <- Hempty. apply elem_of_union_l. by apply elem_of_singleton. }
  split.
  { apply (str_split_go_tokens ", " (String.length cell)); [done|done|].
    intros u v Huv Hv. by destruct u, v. }
  split.
  { intros Hc. unfold cell_transaction, str_split.
    rewrite str_split_go_plain by done.
    change (EmptyString +:+ cell) with cell.
    by rewrite list_to_set_cons, list_to_set_nil, (right_id_L ∅ (∪)). }
  split; [apply parse_transactions_str|].
  split; [apply parse_transactions_not_str|].
  induction cells as [|t cells IH]; intros transactions Hparse.
  - injection Hparse as <-. by exists [].
  - cbn [parse_transactions] in Hparse.
    destruct t as [s| |]; cbn [parse_cell] in Hparse; [|done..].
    destruct (parse_transactions cells) as [e|ts]; [done|].
    injection Hparse as <-.
    destruct (IH ts eq_refl) as (texts & -> & ->). by exists (s :: texts).
Qed.

(** ** Dataset discovery: what is offered *)

Lemma substring_all (s : string) : String.substring 0 (String.length s) s = s.
Proof. induction s as [|c s IH]; [done|]. simpl. by rewrite IH. Qed.

Lemma substring_skip (p s : string) (m : nat) :
  String.substring (String.length p) m (p +:+ s) = String.substring 0 m s.
Proof. induction p as [|c p IH]; [done|]. exact IH. Qed.

Lemma substring_split (s : string) : ∀ n,
  (n ≤ String.length s)%nat →
  s = String.substring 0 n s +:+ String.substring n (String.length s - n) s.
Proof.
  induction s as [|c s IH]; intros n Hn.
  - by destruct n.
  - destruct n as [|n].
    + cbn [String.substring String.length Nat.sub].
      by rewrite substring_all.
    + simpl in Hn.
      change (String c s = String c (String.substring 0 n s
                +:+ String.substring n (String.length s - n) s)).
      f_equal. apply IH. lia.
Qed.

Lemma endswith_spec (s suffix : string) :
  endswith s suffix = true ↔ ∃ stem, s = stem +:+ suffix.
Proof.
  unfold endswith. split.
  - destruct (String.length suffix <=? String.length s)%nat eqn:Hle; [|done].
    apply Nat.leb_le in Hle. intros Heq%String.eqb_eq.
    exists (String.substring 0 (String.length s - String.length suffix) s).
    pose proof (substring_split s (String.length s - String.length suffix)) as Hs.
    replace (String.length s - (String.length s - String.length suffix))%nat
      with (String.length suffix) in Hs by lia.
    rewrite Heq in Hs. apply Hs. lia.
  - intros [stem ->]. rewrite append_length.
    rewrite (proj2 (Nat.leb_le _ _)) by lia.
    replace (String.length stem + String.length suffix - String.length suffix)%nat
      with (String.length stem) by lia.
    rewrite substring_skip, substring_all. apply String.eqb_refl.
Qed.


Lemma dataset_locator_ret_inv base_dir w w' available_datasets :
  dataset_locator base_dir w = (Ret available_datasets, w') →
  ∃ entries,
    fs w !! input_dir base_dir = Some (Dir entries) ∧
    available_datasets = filter (λ f, endswith f ".csv" = true) entries ∧
    available_datasets ≠ [] ∧
    w' = mkWorld (fs w) (stdin w) (stdout w ++ datasets_listing available_datasets).
Proof.
  intros Hrun.
  destruct (fs w !! input_dir base_dir) as [[|entries]|] eqn:Hd.
  - exfalso. revert Hrun. unfold dataset_locator, bind.
    rewrite check_input_dir_present by (by rewrite Hd).
    unfold list_datasets, bind, os_listdir. by rewrite Hd.
  - exists entries. split; [done|].
    revert Hrun. unfold dataset_locator, bind.
    rewrite check_input_dir_present by (by rewrite Hd).
    rewrite (list_datasets_dir _ _ _ Hd).
    destruct (filter (λ f, endswith f ".csv" = true) entries) as [|d ds] eqn:Hf;
      [done|].
    by intros [= <- <-].
  - exfalso. revert Hrun. unfold dataset_locator, bind.
    by rewrite check_input_dir_missing.
Qed.

Lemma datasets_listing_lookup available_datasets k dataset :
  available_datasets !! k = Some dataset →
  datasets_listing available_datasets !! S k
  = Some (Print [Int (Z.of_nat k + 1); Txt ". "; Txt dataset]).
Proof.
  intros Hk. unfold datasets_listing.
  rewrite lookup_cons_ne_0 by lia. cbn [Nat.pred].
  rewrite list_lookup_imap, Hk. simpl. do 4 f_equal. lia.
Qed.

(** X4.  When the locator returns, the data sets it offers are the
    entries of the input directory whose names have the form
    [stem.csv], all of them, in the order of the directory listing and
    as often as listed; one line is printed per data set, after the
    heading, and the line of the data set at position [k] (from 0)
    carries the number [k + 1]. *)
Theorem dataset_locator_offers (base_dir : string) (w w' : world)
    (available_datasets : list string) :
  dataset_locator base_dir w = (Ret available_datasets, w') →
  ∃ entries,
    fs w !! input_dir base_dir = Some (Dir entries) ∧
    available_datasets `sublist_of` entries ∧
    (∀ f, f ∈ available_datasets ↔ f ∈ entries ∧ ∃ stem, f = stem +:+ ".csv") ∧
    available_datasets ≠ [] ∧
    stdout w' = stdout w ++ datasets_listing available_datasets ∧
    length (datasets_listing available_datasets) = S (length available_datasets) ∧
    ∀ k dataset, available_datasets !! k = Some dataset →
      datasets_listing available_datasets !! S k
      = Some (Print [Int (Z.of_nat k + 1); Txt ". "; Txt dataset]).
Proof.
  intros (entries & Hd & Hav & Hne & ->)%dataset_locator_ret_inv.
  exists entries. split; [done|].
  split; [rewrite Hav; apply sublist_filter|].
  split.
  { intros f. by rewrite Hav, list_elem_of_filter, endswith_spec, (comm and). }
  split; [done|]. split; [done|].
  split; [unfold datasets_listing; simpl; by rewrite length_imap|].
  apply datasets_listing_lookup.
Qed.

Lemma dataset_locator_offers_witness :
  ∃ entries,
    fs (mkWorld {[ "/srv/app/transactions" := Dir ["amazon.csv"; "notes.txt"] ]} [] [])
      !! input_dir "/srv/app" = Some (Dir entries) ∧
    ["amazon.csv"] `sublist_of` entries.
Proof.
  assert (dataset_locator "/srv/app"
            (mkWorld {[ "/srv/app/transactions" := Dir ["amazon.csv"; "notes.txt"] ]} [] [])
          = (Ret ["amazon.csv"],
             mkWorld {[ "/srv/app/transactions" := Dir ["amazon.csv"; "notes.txt"] ]} []
               (datasets_listing ["amazon.csv"]))) as Hrun by reflexivity.
  destruct (dataset_locator_offers _ _ _ _ Hrun) as (entries & H1 & H2 & _).
  exists entries. split; [exact H1|exact H2].
Defined.


(** ** The input loops: transcript and end of input *)

Section input_loop_more.
Context {A : Type} (prompt : list piece) (body : string → verdict A).

Lemma transcript_cons line rejected :
  transcript prompt body (line :: rejected)
  = Prompt prompt :: match body line with Reject message => [Print message] | _ => [] end
    ++ transcript prompt body rejected.
Proof. unfold transcript. rewrite bind_cons. by rewrite <- app_assoc. Qed.

Lemma reads_until_valid_intro (valid : string → Prop) :
  (∀ line, match body line with
           | Accept _ => valid line
           | Reject _ => ¬ valid line
           | Abort _ => False
           end) →
  reads_until_valid prompt body valid.
Proof.
  intros Hbody lines. induction lines as [|l lines IH]; intros out.
  - exists []. split; [constructor|]. split; [done|]. right. by repeat split.
  - cbn [input_loop]. specialize (Hbody l).
    destruct (body l) as [a|message|e] eqn:Hl; [| |done].
    + exists []. split; [constructor|]. split; [done|].
      left. exists a, l. by repeat split.
    + destruct (IH (out ++ [Prompt prompt; Print message]))
        as (rejected & Hrej & Hout & Hend).
      exists (l :: rejected). split; [by constructor|].
      split.
      { rewrite Hout, transcript_cons, Hl. by rewrite <- app_assoc. }
      destruct Hend as [(a & line & Hlines & Hv & Hacc & Hret)|(Hlines & Hrest & Hraise)].
      * left. exists a, line. repeat split; try done.
        rewrite Hlines at 1. done.
      * right. repeat split; try done. by rewrite Hlines at 1.
Qed.

Lemma run_input_loop_frame (valid : string → Prop) w :
  reads_until_valid prompt body valid →
  fs (run_input_loop prompt body w).2 = fs w ∧
  stdin (run_input_loop prompt body w).2 `suffix_of` stdin w ∧
  stdout w `prefix_of` stdout (run_input_loop prompt body w).2 ∧
  match (run_input_loop prompt body w).1 with
  | Ret a => ∃ line, line ∈ stdin w ∧ valid line ∧ body line = Accept a
  | Exit _ => False
  | Raise e => e = EOFError ∧ stdin (run_input_loop prompt body w).2 = []
  end.
Proof.
  intros Hloop. unfold run_input_loop.
  destruct (Hloop (stdin w) (stdout w)) as (rejected & _ & Hout & Hend).
  destruct (input_loop prompt body (stdin w) (stdout w)) as [[r rest] out'].
  simpl in *. split; [done|].
  destruct Hend as [(a & line & Hlines & Hv & Hacc & ->)|(Hlines & -> & ->)].
  - split; [rewrite Hlines; by exists (rejected ++ [line]); rewrite <- app_assoc|].
    split; [rewrite Hout; by apply prefix_app_r|].
    exists line. split; [|done]. rewrite Hlines.
    apply elem_of_app. right. by left.
  - split; [by exists (stdin w); rewrite app_nil_r|].
    split; [rewrite Hout; by apply prefix_app_r|]. done.
Qed.
End input_loop_more.

Section prompts_more.
Variable py_int : string → option Z.
Variable py_float : string → option float.

Lemma dataset_loop_reads_until_valid available_datasets :
  reads_until_valid dataset_prompt (dataset_body py_int available_datasets)
    (λ line, ∃ choice, py_int line = Some choice ∧
                       1 ≤ choice ≤ Z.of_nat (length available_datasets)).
Proof.
  apply reads_until_valid_intro. intros line.
  pose proof (dataset_body_cases py_int available_datasets line) as H.
  destruct (dataset_body _ _ _) as [v| |]; [|by destruct H|done].
  destruct H as (H1 & H2 & _). eauto.
Qed.

Lemma support_loop_reads_until_valid :
  reads_until_valid support_prompt (support_body py_float)
    (λ line, ∃ x, py_float line = Some x ∧ in_unit_interval x).
Proof.
  apply reads_until_valid_intro. intros line.
  pose proof (support_body_cases py_float line) as H.
  destruct (support_body _ _) as [x| |]; [|by destruct H|done]. eauto.
Qed.

Lemma confidence_loop_reads_until_valid :
  reads_until_valid confidence_prompt (confidence_body py_float)
    (λ line, ∃ x, py_float line = Some x ∧ in_unit_interval x).
Proof.
  apply reads_until_valid_intro. intros line.
  pose proof (confidence_body_cases py_float line) as H.
  destruct (confidence_body _ _) as [x| |]; [|by destruct H|done]. eauto.
Qed.

(** X6.  On every input, finite as it is, each of the three loops
    rejects the invalid lines up to the first valid one, writing the
    prompt before each line it reads and the message after each line it
    rejects; it then returns the value of the valid line and leaves the
    lines behind it unread, or, when no valid line comes, ends with
    [EOFError] after a last prompt.  No loop ends in another way: none
    exits, and the dataset loop never indexes outside the list. *)
Theorem input_loops_read_until_valid (available_datasets : list string) :
  reads_until_valid dataset_prompt (dataset_body py_int available_datasets)
    (λ line, ∃ choice, py_int line = Some choice ∧
                       1 ≤ choice ≤ Z.of_nat (length available_datasets)) ∧
  reads_until_valid support_prompt (support_body py_float)
    (λ line, ∃ x, py_float line = Some x ∧ in_unit_interval x) ∧
  reads_until_valid confidence_prompt (confidence_body py_float)
    (λ line, ∃ x, py_float line = Some x ∧ in_unit_interval x).
Proof.
  split; [apply dataset_loop_reads_until_valid|].
  split; [apply support_loop_reads_until_valid|apply confidence_loop_reads_until_valid].
Qed.

(** X7.  Steps 2 and 3 together leave the file system as it is, read
    standard input from the front and only add to the console.  When
    they return, the data set is one of those offered and both
    thresholds satisfy [0 < x <= 1]; otherwise the input ran out and the
    run ends with [EOFError]. *)
Theorem collect_parameters_result (available_datasets : list string) (w : world) :
  fs (collect_parameters py_int py_float available_datasets w).2 = fs w ∧
  stdin (collect_parameters py_int py_float available_datasets w).2 `suffix_of` stdin w ∧
  stdout w `prefix_of` stdout (collect_parameters py_int py_float available_datasets w).2 ∧
  match (collect_parameters py_int py_float available_datasets w).1 with
  | Ret (selected_dataset, min_support, min_confidence) =>
      selected_dataset ∈ available_datasets ∧
      in_unit_interval min_support ∧ in_unit_interval min_confidence
  | Exit _ => False
  | Raise e =>
      e = EOFError ∧
      stdin (collect_parameters py_int py_float available_datasets w).2 = []
  end.
Proof.
  unfold collect_parameters, bind.
  pose proof (run_input_loop_frame _ _ _ w
                (dataset_loop_reads_until_valid available_datasets)) as H1.
  destruct (run_input_loop dataset_prompt _ w) as [[[choice d]|code|e] w1];
    simpl in H1; destruct H1 as (Hfs1 & Hin1 & Hout1 & Hres1); [|done|done].
  pose proof (run_input_loop_frame _ _ _ w1 support_loop_reads_until_valid) as H2.
  destruct (run_input_loop support_prompt _ w1) as [[s|code|e] w2];
    simpl in H2; destruct H2 as (Hfs2 & Hin2 & Hout2 & Hres2); [|done|].
  2:{ simpl. rewrite Hfs2, Hfs1. split; [done|].
      split; [by etrans|]. split; [by etrans|done]. }
  pose proof (run_input_loop_frame _ _ _ w2 confidence_loop_reads_until_valid) as H3.
  destruct (run_input_loop confidence_prompt _ w2) as [[c|code|e] w3];
    simpl in H3; destruct H3 as (Hfs3 & Hin3 & Hout3 & Hres3); [|done|].
  2:{ simpl. rewrite Hfs3, Hfs2, Hfs1. split; [done|].
      split; [by repeat (etrans; [eassumption|])|].
      split; [by repeat (etrans; [eassumption|])|done]. }
  simpl. rewrite Hfs3, Hfs2, Hfs1. split; [done|].
  split; [by repeat (etrans; [eassumption|])|].
  split; [by repeat (etrans; [eassumption|])|].
  destruct Hres1 as (l1 & _ & _ & Hacc1).
  destruct Hres2 as (l2 & _ & _ & Hacc2).
  destruct Hres3 as (l3 & _ & _ & Hacc3).
  pose proof (dataset_body_cases py_int available_datasets l1) as Hd.
  rewrite Hacc1 in Hd. destruct Hd as (_ & _ & Hd%list_elem_of_lookup_2).
  pose proof (support_body_cases py_float l2) as Hs. rewrite Hacc2 in Hs.
  pose proof (confidence_body_cases py_float l3) as Hc. rewrite Hacc3 in Hc.
  split; [done|]. split; [apply Hs|apply Hc].
Qed.
End prompts_more.

(** ** From the listing to the chosen data set *)

(** X8.  The data set the dataset loop accepts is an entry of the input
    directory whose name has the form [stem.csv], and the number the
    user typed is the number printed beside that data set in the
    listing. *)
Theorem selected_dataset_is_listed (py_int : string → option Z)
    (base_dir : string) (w w' : world) (available_datasets : list string)
    (line : string) (choice : Z) (selected_dataset : string) :
  dataset_locator base_dir w = (Ret available_datasets, w') →
  dataset_body py_int available_datasets line = Accept (choice, selected_dataset) →
  ∃ entries stem,
    fs w !! input_dir base_dir = Some (Dir entries) ∧
    selected_dataset ∈ entries ∧
    selected_dataset = stem +:+ ".csv" ∧
    datasets_listing available_datasets !! Z.to_nat choice
    = Some (Print [Int choice; Txt ". "; Txt selected_dataset]).
Proof.
  intros (entries & Hd & Hav & Hne & ->)%dataset_locator_ret_inv Hacc.
  pose proof (dataset_body_cases py_int available_datasets line) as Hcase.
  rewrite Hacc in Hcase. simpl in Hcase. destruct Hcase as (_ & Hrange & Hlook).
  assert (selected_dataset ∈ available_datasets) as Hin
    by by eapply list_elem_of_lookup_2.
  rewrite Hav in Hin. apply list_elem_of_filter in Hin as [Hcsv Hin].
  apply endswith_spec in Hcsv as [stem Hstem].
  exists entries, stem. split; [done|]. split; [done|]. split; [done|].
  replace (Z.to_nat choice) with (S (Z.to_nat (choice - 1))) by lia.
  rewrite (datasets_listing_lookup _ _ _ Hlook). do 4 f_equal. lia.
Qed.

Lemma selected_dataset_is_listed_witness :
  ∃ entries stem,
    fs (mkWorld {[ "/srv/app/transactions" := Dir ["amazon.csv"; "notes.txt"] ]} [] [])
      !! input_dir "/srv/app" = Some (Dir entries) ∧
    "amazon.csv" ∈ entries ∧
    "amazon.csv" = stem +:+ ".csv".
Proof.
  assert (dataset_locator "/srv/app"
            (mkWorld {[ "/srv/app/transactions" := Dir ["amazon.csv"; "notes.txt"] ]} [] [])
          = (Ret ["amazon.csv"],
             mkWorld {[ "/srv/app/transactions" := Dir ["amazon.csv"; "notes.txt"] ]} []
               (datasets_listing ["amazon.csv"]))) as Hrun by reflexivity.
  assert (dataset_body (λ s, if String.eqb s "1" then Some 1 else None)
            ["amazon.csv"] "1" = Accept (1, "amazon.csv")) as Hacc by reflexivity.
  destruct (selected_dataset_is_listed _ _ _ _ _ _ _ _ Hrun Hacc)
    as (entries & stem & H1 & H2 & H3 & _).
  exists entries, stem. split; [exact H1|]. split; [exact H2|exact H3].
Defined.

(** ** The result persister: the prefix and the files *)

Section csv_facts.
Import Stdlib.Strings.Ascii.

Lemma csv_prefix_false_at_end (c : ascii) (s : string) :
  str_contains ".csv" (String c s) = false →
  String.prefix ".csv" (String c s +:+ ".csv") = false.
Proof.
  intros Hc. destruct (String.prefix ".csv" (String c s +:+ ".csv")) eqn:Hp; [|done].
  exfalso. apply prefix_split in Hp as [r Hr].
  cbn [str_contains] in Hc. apply orb_false_iff in Hc as [Hc _].
  change (String c s +:+ ".csv") with (String c (s +:+ ".csv")) in Hr.
  change (".csv" +:+ r) with (String "."%char (String "c"%char (String "s"%char (String "v"%char r)))) in Hr.
  injection Hr as -> Hr.
  destruct s as [|x s].
  { change (EmptyString +:+ ".csv") with ".csv" in Hr. discriminate. }
  change (String x s +:+ ".csv") with (String x (s +:+ ".csv")) in Hr.
  injection Hr as -> Hr.
  destruct s as [|y s].
  { change (EmptyString +:+ ".csv") with ".csv" in Hr. discriminate. }
  change (String y s +:+ ".csv") with (String y (s +:+ ".csv")) in Hr.
  injection Hr as -> Hr.
  destruct s as [|z s].
  { change (EmptyString +:+ ".csv") with ".csv" in Hr. discriminate. }
  change (String z s +:+ ".csv") with (String z (s +:+ ".csv")) in Hr.
  injection Hr as -> Hr.
  by destruct s; vm_compute in Hc.
Qed.
End csv_facts.

Lemma str_contains_tail old c s :
  str_contains old (String c s) = false → str_contains old s = false.
Proof. cbn [str_contains]. by intros [_ ?]%orb_false_iff. Qed.

Lemma str_replace_go_absent old new : ∀ s,
  str_contains old s = false → str_replace_go old new 0 s = s.
Proof.
  induction s as [|c s IH]; intros Hc; [done|].
  cbn [str_replace_go]. cbn [str_contains] in Hc.
  apply orb_false_iff in Hc as [Hp Hc]. rewrite Hp. by rewrite IH.
Qed.

Lemma str_replace_go_csv_stem : ∀ stem,
  str_contains ".csv" stem = false →
  str_replace_go ".csv" "" 0 (stem +:+ ".csv") = stem.
Proof.
  induction stem as [|c stem IH]; intros Hc; [done|].
  change (String c stem +:+ ".csv") with (String c (stem +:+ ".csv")).
  cbn [str_replace_go].
  change (String c (stem +:+ ".csv")) with (String c stem +:+ ".csv") at 1.
  rewrite csv_prefix_false_at_end by done.
  rewrite IH; [done|]. by eapply str_contains_tail.
Qed.

(** X9.  For a data set named [stem.csv] whose stem does not itself
    contain [.csv], the prefix is the stem, so the prefix followed by
    the extension is the name again and the four files are named after
    the stem. A name without any [.csv] is its own prefix. *)
Theorem dataset_prefix_single_extension (stem : string) :
  str_contains ".csv" stem = false →
  dataset_prefix (stem +:+ ".csv") = stem ∧
  dataset_prefix (stem +:+ ".csv") +:+ ".csv" = stem +:+ ".csv" ∧
  dataset_prefix stem = stem ∧
  ∀ out_dir, result_paths out_dir (dataset_prefix (stem +:+ ".csv"))
             = result_paths out_dir stem.
Proof.
  intros Hc. unfold dataset_prefix, str_replace.
  rewrite str_replace_go_csv_stem, str_replace_go_absent by done. done.
Qed.

Lemma dataset_prefix_single_extension_witness :
  str_contains ".csv" "groceries" = false ∧
  dataset_prefix ("groceries" +:+ ".csv") = "groceries".
Proof.
  split; [reflexivity|].
  apply (dataset_prefix_single_extension "groceries"). reflexivity.
Defined.


Lemma lookup_foldl_insert_file paths : ∀ (m : gmap string node) path,
  foldl (λ m path, <[path := File]> m) m paths !! path
  = if decide (path ∈ paths) then Some File else m !! path.
Proof.
  induction paths as [|p paths IH]; intros m path; cbn [foldl].
  - by rewrite decide_False by apply not_elem_of_nil.
  - rewrite IH. destruct (decide (path ∈ paths)) as [Hin|Hnin].
    + by rewrite decide_True by (by right).
    + destruct (decide (p = path)) as [->|Hne].
      * rewrite decide_True by (by left). apply lookup_insert_eq.
      * rewrite lookup_insert_ne by done.
        rewrite decide_False; [done|]. by intros [->|?]%elem_of_cons.
Qed.

Section slash_facts.
Import Stdlib.Strings.Ascii.






End slash_facts.









(** ** The itemset preview: which rows are shown *)



Example display_top_itemsets_stops_ex :
  let rows := range_index [ mkItemsetRow {["tea"]} 0.5;
                            mkItemsetRow {["milk"]} nan;
                            mkItemsetRow {["eggs"]} 0.25 ] in
  display_top_itemsets 4 rows "Table Apriori" default_top_n (mkWorld ∅ [] [])
  = (Raise ValueError,
     mkWorld ∅ [] [ Print [Txt nl; Txt "Table Apriori"; Txt ":"];
                    Print [Txt "Itemset | Count"];
                    Print [Lst ["tea"]; Txt " : "; Int 2] ]).
Proof. vm_compute. reflexivity. Qed.

(** ** The merged rule table, further *)

Section drop_duplicates_more.
Context {A K : Type} `{EqDecision K} (key : A → K).
Implicit Types (rows : frame A) (seen : list K) (r : Z * A).

(** Only the members of [seen] matter, not their order or number. *)
Lemma drop_duplicates_go_ext rows : ∀ seen seen',
  (∀ k, k ∈ seen ↔ k ∈ seen') →
  drop_duplicates_go key seen rows = drop_duplicates_go key seen' rows.
Proof.
  induction rows as [|[i row] rows IH]; intros seen seen' Hiff; [done|].
  cbn [drop_duplicates_go].
  destruct (decide (key row ∈ seen)) as [Hin|Hnin].
  - rewrite decide_True by by apply Hiff. by apply IH.
  - rewrite decide_False by (by intros ?%Hiff). f_equal. apply IH.
    intros k. rewrite !elem_of_cons. by rewrite Hiff.
Qed.

Lemma drop_duplicates_go_app rows1 rows2 : ∀ seen,
  drop_duplicates_go key seen (rows1 ++ rows2)
  = drop_duplicates_go key seen rows1
    ++ drop_duplicates_go key
         (((λ r, key r.2) <$> drop_duplicates_go key seen rows1) ++ seen) rows2.
Proof.
  induction rows1 as [|[i row] rows1 IH]; intros seen; [done|].
  cbn [app drop_duplicates_go].
  destruct (decide (key row ∈ seen)) as [Hin|Hnin]; [apply IH|].
  rewrite IH. cbn [app fmap list_fmap]. f_equal. f_equal.
  apply drop_duplicates_go_ext. intros k.
  rewrite !elem_of_app, !elem_of_cons, elem_of_app. cbn [snd]. tauto.
Qed.

Lemma drop_duplicates_go_keys rows : ∀ seen k,
  k ∈ ((λ r, key r.2) <$> drop_duplicates_go key seen rows) ++ seen
  ↔ k ∈ ((λ r, key r.2) <$> rows) ++ seen.
Proof.
  induction rows as [|[i row] rows IH]; intros seen k; [done|].
  cbn [drop_duplicates_go].
  destruct (decide (key row ∈ seen)) as [Hin|Hnin].
  - rewrite IH. rewrite fmap_cons. cbn [snd app].
    rewrite elem_of_cons, !elem_of_app. split; [tauto|].
    intros [->|?]; [by right|done].
  - rewrite !fmap_cons. cbn [snd app]. rewrite !elem_of_cons.
    specialize (IH (key row :: seen) k).
    rewrite !elem_of_app, !elem_of_cons in IH. rewrite !elem_of_app. tauto.
Qed.

Lemma drop_duplicates_go_id rows : ∀ seen,
  NoDup ((λ r, key r.2) <$> rows) →
  (∀ r, r ∈ rows → key r.2 ∉ seen) →
  drop_duplicates_go key seen rows = rows.
Proof.
  induction rows as [|[i row] rows IH]; intros seen Hnd Hfresh; [done|].
  rewrite fmap_cons in Hnd. apply NoDup_cons in Hnd as [Hrow Hnd].
  cbn [drop_duplicates_go].
  rewrite decide_False by (apply (Hfresh (i, row)); by left).
  f_equal. apply IH; [done|].
  intros r Hr [Heq|Hseen]%elem_of_cons.
  - apply Hrow. cbn [snd]. rewrite <- Heq. apply list_elem_of_fmap. by exists r.
  - apply (Hfresh r); [by right|done].
Qed.

Lemma drop_duplicates_go_nil rows : ∀ seen,
  (∀ r, r ∈ rows → key r.2 ∈ seen) →
  drop_duplicates_go key seen rows = [].
Proof.
  induction rows as [|[i row] rows IH]; intros seen Hseen; [done|].
  cbn [drop_duplicates_go].
  rewrite decide_True by (apply (Hseen (i, row)); by left).
  apply IH. intros r Hr. apply Hseen. by right.
Qed.

(** The rows of the second table that survive are those whose key the
    first table does not have. *)
Lemma drop_duplicates_app rows1 rows2 :
  drop_duplicates key (rows1 ++ rows2)
  = drop_duplicates key rows1
    ++ drop_duplicates_go key ((λ r, key r.2) <$> rows1) rows2.
Proof.
  unfold drop_duplicates. rewrite drop_duplicates_go_app. f_equal.
  apply drop_duplicates_go_ext. intros k.
  rewrite drop_duplicates_go_keys. by rewrite !app_nil_r.
Qed.
End drop_duplicates_more.


(** X14.  When no two Apriori rules share their pair of antecedents and
    consequents, the merged table begins with the Apriori table, row for
    row and with its labels; and when moreover every pair of FP-Growth
    is one of Apriori, the merged table is the Apriori table. *)
Theorem final_rules_keeps_apriori (apriori_rules fpg_rules : frame Rule) :
  NoDup ((λ r, rule_key r.2) <$> apriori_rules) →
  apriori_rules `prefix_of` final_rules apriori_rules fpg_rules ∧
  ((∀ r, r ∈ fpg_rules → rule_key r.2 ∈ (λ r, rule_key r.2) <$> apriori_rules) →
   final_rules apriori_rules fpg_rules = apriori_rules).
Proof.
  intros Hnd. unfold final_rules, pd_concat. rewrite drop_duplicates_app.
  unfold drop_duplicates.
  rewrite drop_duplicates_go_id; [|done|by intros r _ ?%elem_of_nil].
  split; [by apply prefix_app_r|].
  intros Hall. rewrite drop_duplicates_go_nil by done. by rewrite app_nil_r.
Qed.

Lemma final_rules_keeps_apriori_witness :
  let r1 := mkRule {["a"]} {["b"]} 0.5 [] in
  let r2 := mkRule {["b"]} {["a"]} 0.75 [] in
  NoDup ((λ r, rule_key r.2) <$> range_index [r1; r2]) ∧
  range_index [r1; r2] `prefix_of`
    final_rules (range_index [r1; r2]) (range_index [r2; r1]).
Proof.
  intros r1 r2.
  assert (NoDup ((λ r, rule_key r.2) <$> range_index [r1; r2])) as Hnd.
  { apply NoDup_cons_2; [|apply NoDup_singleton].
    intros Heq%list_elem_of_singleton. apply (f_equal fst) in Heq.
    change (({["a"]} : gset string) = {["b"]}) in Heq.
    assert ("a" ∈ ({["b"]} : gset string)) as Hin
      by (rewrite <- Heq; by apply elem_of_singleton).
    by apply elem_of_singleton in Hin. }
  split; [exact Hnd|].
  exact (proj1 (final_rules_keeps_apriori (range_index [r1; r2])
                  (range_index [r2; r1]) Hnd)).
Defined.

(** X15.  Merging is stable: dropping repeats from the merged table, or
    merging the FP-Growth table into it once more, gives the merged table
    again. *)
Theorem final_rules_stable (apriori_rules fpg_rules : frame Rule) :
  final_rules (final_rules apriori_rules fpg_rules) []
  = final_rules apriori_rules fpg_rules ∧
  final_rules (final_rules apriori_rules fpg_rules) fpg_rules
  = final_rules apriori_rules fpg_rules.
Proof.
  assert (∀ rows : frame Rule,
            (∀ r, r ∈ rows →
               rule_key r.2 ∈ (λ r, rule_key r.2)
                 <$> final_rules apriori_rules fpg_rules) →
            final_rules (final_rules apriori_rules fpg_rules) rows
            = final_rules apriori_rules fpg_rules) as Hstable.
  { intros rows Hrows.
    unfold final_rules at 1. unfold pd_concat. rewrite drop_duplicates_app.
    unfold drop_duplicates at 1.
    rewrite drop_duplicates_go_id;
      [|apply drop_duplicates_go_NoDup|by intros r _ ?%elem_of_nil].
    rewrite drop_duplicates_go_nil by done. by rewrite app_nil_r. }
  split; apply Hstable.
  - by intros r ?%elem_of_nil.
  - intros r Hr.
    destruct (drop_duplicates_go_covers rule_key (apriori_rules ++ fpg_rules) [] r)
      as (r' & Hr' & Hk).
    { apply elem_of_app. by right. }
    { by intros ?%elem_of_nil. }
    apply list_elem_of_fmap. by exists r'.
Qed.

(** ** The compact view *)

Lemma final_rules_nil (apriori_rules fpg_rules : frame Rule) :
  final_rules apriori_rules fpg_rules = [] ↔ apriori_rules = [] ∧ fpg_rules = [].
Proof.
  split.
  - intros Hnil.
    destruct (apriori_rules ++ fpg_rules) as [|r rows] eqn:Hrows.
    { by apply app_eq_nil in Hrows. }
    destruct (drop_duplicates_go_covers rule_key (apriori_rules ++ fpg_rules) [] r)
      as (r' & Hr' & _).
    { rewrite Hrows. by left. }
    { by intros ?%elem_of_nil. }
    unfold final_rules, drop_duplicates, pd_concat in Hnil.
    rewrite Hnil in Hr'. by apply elem_of_nil in Hr'.
  - by intros [-> ->].
Qed.

Lemma numbered_lookup {A B} (f : nat * A → B) (xs : list A) (k : nat) :
  (f <$> enumerate_from 1 xs) !! k = (λ x, f (S k, x)) <$> xs !! k.
Proof.
  unfold enumerate_from. rewrite fmap_imap, list_lookup_imap.
  by destruct (xs !! k).
Qed.

(** X16.  The compact view opens with its heading.  It shows the notice
    exactly when both rule tables are empty.  Otherwise it has one line
    per row of the merged table, in order: line [k] carries the number
    [k], counted from 1 whatever labels the rows have, and the sets and
    the confidence of that row; and no two lines carry the same pair of
    antecedents and consequents. *)
Theorem compact_view_lines (apriori_rules fpg_rules : frame Rule) :
  ∃ lines,
    compact_view apriori_rules fpg_rules = ViewHeading :: lines ∧
    (lines = [NoRulesLine] ↔ apriori_rules = [] ∧ fpg_rules = []) ∧
    (lines ≠ [NoRulesLine] →
     length lines = length (final_rules apriori_rules fpg_rules) ∧
     (∀ k r, final_rules apriori_rules fpg_rules !! k = Some r →
        lines !! k = Some (RuleLine (Z.of_nat k + 1) (antecedents r.2)
                             (consequents r.2) (confidence r.2))) ∧
     (∀ j k i i' a c x x',
        lines !! j = Some (RuleLine i a c x) →
        lines !! k = Some (RuleLine i' a c x') → j = k)).
Proof.
  unfold compact_view.
  destruct (final_rules apriori_rules fpg_rules) as [|r0 final] eqn:Hfinal.
  - exists [NoRulesLine]. split; [done|]. split; [|done].
    split; [|done]. intros _. by apply final_rules_nil.
  - eexists. split; [reflexivity|].
    assert (∀ k r, (r0 :: final) !! k = Some r →
              ((λ p : nat * (Z * Rule),
                  RuleLine (Z.of_nat p.1) (list_to_set (elements (antecedents p.2.2)))
                    (list_to_set (elements (consequents p.2.2))) (confidence p.2.2))
                 <$> enumerate_from 1 (r0 :: final)) !! k
              = Some (RuleLine (Z.of_nat k + 1) (antecedents r.2) (consequents r.2)
                        (confidence r.2))) as Hline.
    { intros k r Hk. rewrite numbered_lookup, Hk. cbn [fmap option_fmap option_map fst snd].
      rewrite !list_to_set_elements_L. do 2 f_equal. lia. }
    split.
    { split.
      - intros Heq. pose proof (Hline 0%nat r0 eq_refl) as H0.
        rewrite Heq in H0. discriminate H0.
      - intros Hboth. apply final_rules_nil in Hboth.
        rewrite Hfinal in Hboth. discriminate Hboth. }
    intros _. split.
    { unfold enumerate_from. by rewrite length_fmap, length_imap. }
    split; [exact Hline|].
    intros j k i i' a c x x' Hj Hk.
    destruct ((r0 :: final) !! j) as [rj|] eqn:Hrj.
    2: { rewrite numbered_lookup, Hrj in Hj. discriminate Hj. }
    destruct ((r0 :: final) !! k) as [rk|] eqn:Hrk.
    2: { rewrite numbered_lookup, Hrk in Hk. discriminate Hk. }
    rewrite (Hline j rj Hrj) in Hj. rewrite (Hline k rk Hrk) in Hk.
    injection Hj as _ Haj Hcj _. injection Hk as _ Hak Hck _.
    pose proof (drop_duplicates_go_NoDup rule_key (apriori_rules ++ fpg_rules) [])
      as Hnd.
    change (drop_duplicates_go rule_key [] (apriori_rules ++ fpg_rules))
      with (final_rules apriori_rules fpg_rules) in Hnd.
    rewrite Hfinal in Hnd.
    eapply (NoDup_lookup _ j k (rule_key rj.2)); [exact Hnd| |].
    + by rewrite list_lookup_fmap, Hrj.
    + rewrite list_lookup_fmap, Hrk. cbn [fmap option_fmap option_map].
      f_equal. unfold rule_key. by rewrite Haj, Hcj, Hak, Hck.
Qed.
